(** * Flat accounting of the chunk cache (package [accnt], [FlatAccnt])

    A shallow embedding of the accountant of the chunk cache: the byte
    ledger ([metrics]), the recency index ([lru]), the gauge
    [cacheSizeUsed], the evict queue, and the event loop that applies one
    event at a time and then evicts until the cache is below its limit.

    Go values are modelled as follows.
    - [uint64] (sizes, totals, the gauge) is [Z], with the wrap-around of
      [+] and [-] written out ([U64.add], [U64.sub]).
    - [uint32] chunk timestamps are [N]; the code only compares them and
      uses them as map keys.
    - [map[string]*FlatAccntMet] and [map[uint32]uint64] are [gmap]s.  A
      [*FlatAccntMet] is only ever reached through [a.metrics], so a store
      through the pointer is an insert at the metric's key.
    - The channel [evictQ] is the list of everything sent on it so far,
      oldest first; a send blocks while the channel is full, and the
      receiver is taken to keep receiving.  [eventQ] is the list of events
      the loop receives, that is, the events [act] did not drop. *)

From Stdlib Require Import ZArith Lia.
From stdpp Require Import gmap strings list fin_maps sorting.

Local Open Scope Z_scope.

(** ** 64-bit unsigned arithmetic *)

Module U64.
Definition modulus : Z := 2 ^ 64.
Definition wrap (z : Z) : Z := z mod modulus.
Definition add (x y : Z) : Z := wrap (x + y).
Definition sub (x y : Z) : Z := wrap (x - y).
Definition in_range (z : Z) : Prop := 0 <= z < modulus.
End U64.

(** ** Data *)

Record EvictTarget := mkEvictTarget { Metric : string; Ts : N }.

#[global] Instance EvictTarget_eq_dec : EqDecision EvictTarget.
Proof. solve_decision. Defined.

Record FlatAccntMet := mkFlatAccntMet {
  total : Z;
  chunks : gmap N Z
}.

(** Modelled from the spec: the recency index [LRU] ([NewLRU], [touch],
    [del], [pop], [reset]) is not part of the sources at hand.  Following
    section 4.A it is an exact LRU order without duplicates: a list whose
    head is the least recently used id and whose last element is the most
    recently used one. *)
Module LRU.
Definition NewLRU : list EvictTarget := [].

(* remove [id] if present; no-op otherwise *)
Definition del (id : EvictTarget) (l : list EvictTarget) : list EvictTarget :=
  filter (λ x, x ≠ id) l.

(* if [id] is present move it to the most recently used end, otherwise
   insert it there *)
Definition touch (id : EvictTarget) (l : list EvictTarget) : list EvictTarget :=
  if decide (id ∈ l) then del id l ++ [id] else l ++ [id].

(* remove and return the least recently used id, or nothing *)
Definition pop (l : list EvictTarget) : option EvictTarget * list EvictTarget :=
  match l with
  | [] => (None, [])
  | x :: r => (Some x, r)
  end.

Definition reset (l : list EvictTarget) : list EvictTarget := [].
End LRU.

(** Modelled from the spec: the process-wide statistics ([cacheSizeUsed],
    [cacheSizeMax] and the four operation counters) are declared outside
    the sources at hand.  [cacheSizeUsed] is a 64-bit gauge with
    [SetUint64], [AddUint64], [DecUint64] and [Peek]; a counter only has
    [Inc], and is modelled by the number of times [Inc] ran. *)
Record Stats := mkStats {
  cacheSizeUsed : Z;
  cacheSizeMax : Z;
  cacheChunkAdd : N;
  cacheChunkEvict : N;
  cacheMetricAdd : N;
  cacheMetricEvict : N
}.

Record FlatAccnt := mkFlatAccnt {
  metrics : gmap string FlatAccntMet;
  maxSize : Z;
  lru : list EvictTarget;
  evictQ : list EvictTarget;
  (* values sent on the reply channels of get-total events, oldest first *)
  totalsSent : list Z;
  stats : Stats
}.

(** event types of [FlatAccntEvent], each with its payload *)
Inductive FlatAccntEvent :=
| evnt_hit_chnk (metric : string) (ts : N)
| evnt_add_chnk (metric : string) (ts : N) (sz : Z)
| evnt_del_met (metric : string)
| evnt_get_total
| evnt_stop
| evnt_reset.

#[global] Instance FlatAccntEvent_eq_dec : EqDecision FlatAccntEvent.
Proof. solve_decision. Defined.

(** ** Field updates *)

Definition set_metrics (ms : gmap string FlatAccntMet) (a : FlatAccnt) : FlatAccnt :=
  mkFlatAccnt ms (maxSize a) (lru a) (evictQ a) (totalsSent a) (stats a).

Definition set_lru (l : list EvictTarget) (a : FlatAccnt) : FlatAccnt :=
  mkFlatAccnt (metrics a) (maxSize a) l (evictQ a) (totalsSent a) (stats a).

Definition set_stats (s : Stats) (a : FlatAccnt) : FlatAccnt :=
  mkFlatAccnt (metrics a) (maxSize a) (lru a) (evictQ a) (totalsSent a) s.

(* a.evictQ <- &EvictTarget{...} *)
Definition send_evictQ (t : EvictTarget) (a : FlatAccnt) : FlatAccnt :=
  mkFlatAccnt (metrics a) (maxSize a) (lru a) (evictQ a ++ [t]) (totalsSent a) (stats a).

(* res_chan <- v *)
Definition send_total (v : Z) (a : FlatAccnt) : FlatAccnt :=
  mkFlatAccnt (metrics a) (maxSize a) (lru a) (evictQ a) (totalsSent a ++ [v]) (stats a).

Definition set_used (v : Z) (s : Stats) : Stats :=
  mkStats v (cacheSizeMax s) (cacheChunkAdd s) (cacheChunkEvict s)
          (cacheMetricAdd s) (cacheMetricEvict s).

(* cacheSizeUsed.Peek() *)
Definition used (a : FlatAccnt) : Z := cacheSizeUsed (stats a).

(* cacheSizeUsed.SetUint64(v) *)
Definition SetUint64_used (v : Z) (a : FlatAccnt) : FlatAccnt :=
  set_stats (set_used v (stats a)) a.

(* cacheSizeUsed.AddUint64(v) *)
Definition AddUint64_used (v : Z) (a : FlatAccnt) : FlatAccnt :=
  set_stats (set_used (U64.add (used a) v) (stats a)) a.

(* cacheSizeUsed.DecUint64(v) *)
Definition DecUint64_used (v : Z) (a : FlatAccnt) : FlatAccnt :=
  set_stats (set_used (U64.sub (used a) v) (stats a)) a.

Definition Inc_cacheChunkAdd (a : FlatAccnt) : FlatAccnt :=
  let s := stats a in
  set_stats (mkStats (cacheSizeUsed s) (cacheSizeMax s) (N.succ (cacheChunkAdd s))
                     (cacheChunkEvict s) (cacheMetricAdd s) (cacheMetricEvict s)) a.

Definition Inc_cacheChunkEvict (a : FlatAccnt) : FlatAccnt :=
  let s := stats a in
  set_stats (mkStats (cacheSizeUsed s) (cacheSizeMax s) (cacheChunkAdd s)
                     (N.succ (cacheChunkEvict s)) (cacheMetricAdd s) (cacheMetricEvict s)) a.

Definition Inc_cacheMetricAdd (a : FlatAccnt) : FlatAccnt :=
  let s := stats a in
  set_stats (mkStats (cacheSizeUsed s) (cacheSizeMax s) (cacheChunkAdd s)
                     (cacheChunkEvict s) (N.succ (cacheMetricAdd s)) (cacheMetricEvict s)) a.

Definition Inc_cacheMetricEvict (a : FlatAccnt) : FlatAccnt :=
  let s := stats a in
  set_stats (mkStats (cacheSizeUsed s) (cacheSizeMax s) (cacheChunkAdd s)
                     (cacheChunkEvict s) (cacheMetricAdd s) (N.succ (cacheMetricEvict s))) a.

(** ** The accountant *)

(** The statistics are package-level variables that start at zero;
    [NewFlatAccnt] only sets [cacheSizeMax], here on fresh statistics. *)
Definition NewFlatAccnt (maxSize : Z) : FlatAccnt :=
  mkFlatAccnt ∅ maxSize LRU.NewLRU [] []
              (mkStats 0 maxSize 0 0 0 0).

(** [for ts := range met.chunks]: the keys of the chunk map, in the order
    the map enumerates them. *)
Definition chunk_keys (met : FlatAccntMet) : list N :=
  (map_to_list (chunks met)).*1.

Definition delMet (metric : string) (a : FlatAccnt) : FlatAccnt :=
  match metrics a !! metric with
  | None => a
  | Some met =>
      let l := foldl (λ l ts, LRU.del (mkEvictTarget metric ts) l)
                     (lru a) (chunk_keys met) in
      let a := set_lru l a in
      let a := DecUint64_used (total met) a in
      set_metrics (delete metric (metrics a)) a
  end.

Definition add (metric : string) (ts : N) (sz : Z) (a : FlatAccnt) : FlatAccnt :=
  let '(met, a) :=
    match metrics a !! metric with
    | Some met => (met, a)
    | None =>
        let met := mkFlatAccntMet 0 ∅ in
        (met, Inc_cacheMetricAdd (set_metrics (<[metric := met]> (metrics a)) a))
    end in
  match chunks met !! ts with
  | Some _ => a (* we already have that chunk *)
  | None =>
      let met := mkFlatAccntMet (U64.add (total met) sz) (<[ts := sz]> (chunks met)) in
      AddUint64_used sz (set_metrics (<[metric := met]> (metrics a)) a)
  end.

(** Modelled from the spec: [Uint32Asc] is declared outside the sources at
    hand; [sort.Sort(Uint32Asc(targets))] sorts the timestamps ascending. *)
Definition sort_Uint32Asc (l : list N) : list N := merge_sort N.le l.

(** the chunks of [met] that are chronologically not younger than the
    target, sorted *)
Definition evict_targets (met : FlatAccntMet) (target : EvictTarget) : list N :=
  sort_Uint32Asc (filter (λ ts, (ts ≤ Ts target)%N) (chunk_keys met)).

(** one round of the loop [for _, ts = range targets] *)
Definition evict_chunk (metric : string) (st : FlatAccntMet * FlatAccnt) (ts : N)
  : FlatAccntMet * FlatAccnt :=
  let '(met, a) := st in
  let sz := default 0 (chunks met !! ts) in
  let met := mkFlatAccntMet (U64.sub (total met) sz) (chunks met) in
  let a := DecUint64_used sz a in
  let a := Inc_cacheChunkEvict a in
  let a := send_evictQ (mkEvictTarget metric ts) a in
  let met := mkFlatAccntMet (total met) (delete ts (chunks met)) in
  (met, set_metrics (<[metric := met]> (metrics a)) a).

Definition evict (a : FlatAccnt) : FlatAccnt :=
  match LRU.pop (lru a) with
  | (None, _) => a (* got nothing to evict *)
  | (Some target, l) =>
      let a := set_lru l a in
      match metrics a !! Metric target with
      | None => a
      | Some met =>
          let '(met, a) :=
            foldl (evict_chunk (Metric target)) (met, a) (evict_targets met target) in
          if total met <=? 0
          then let a := Inc_cacheMetricEvict a in
               set_metrics (delete (Metric target) (metrics a)) a
          else a
      end
  end.

(* res_chan <- cacheSizeUsed.Peek() *)
Definition getTotal (a : FlatAccnt) : FlatAccnt := send_total (used a) a.

(** the [switch event.t] of the event loop, for every event but stop *)
Definition apply_event (ev : FlatAccntEvent) (a : FlatAccnt) : FlatAccnt :=
  match ev with
  | evnt_add_chnk metric ts sz =>
      let a := add metric ts sz a in
      let a := Inc_cacheChunkAdd a in
      set_lru (LRU.touch (mkEvictTarget metric ts) (lru a)) a
  | evnt_hit_chnk metric ts =>
      set_lru (LRU.touch (mkEvictTarget metric ts) (lru a)) a
  | evnt_del_met metric => delMet metric a
  | evnt_get_total => getTotal a
  | evnt_stop => a
  | evnt_reset =>
      let a := set_metrics ∅ a in
      let a := set_lru (LRU.reset (lru a)) a in
      SetUint64_used 0 a
  end.

(** [for cacheSizeUsed.Peek() > a.maxSize { a.evict() }], run for at most
    [fuel] tests of the loop condition; [None] when the loop is still
    running after that. *)
Fixpoint drain_fuel (fuel : nat) (a : FlatAccnt) : option FlatAccnt :=
  match fuel with
  | O => None
  | S fuel =>
      if used a >? maxSize a then drain_fuel fuel (evict a) else Some a
  end.

(** Every call of [evict] on a non-empty index pops one id, and on an
    empty index changes nothing, so a loop that has not stopped after
    [length (lru a)] rounds never stops; see [drain_None_forever]. *)
Definition drain (a : FlatAccnt) : option FlatAccnt :=
  drain_fuel (S (length (lru a))) a.

(** The event loop on the events it receives, in order.  The result is the
    state in which the loop waits for its next event, or in which it
    returned on a stop event; [None] when a drain loop never ends. *)
Fixpoint eventLoop (a : FlatAccnt) (events : list FlatAccntEvent) : option FlatAccnt :=
  match events with
  | [] => Some a
  | evnt_stop :: _ => Some a
  | ev :: events =>
      match drain (apply_event ev a) with
      | Some a => eventLoop a events
      | None => None
      end
  end.

Definition s_a : string := "a".
Definition s_b : string := "b".
Definition s_c : string := "c".

(** * Definitions for the statements

    Closed forms of the loops, the invariants and the reachable states,
    and the concrete states used in examples. *)

(** subtracting the sizes one after the other *)
Definition sub_all (x : Z) (sizes : list Z) : Z := foldl U64.sub x sizes.

Definition sum_list_Z (l : list Z) : Z := foldr Z.add 0 l.

(** the sum of [g] over the values of a map *)
Definition msum `{Countable K} {A : Type} (g : A → Z) (m : gmap K A) : Z :=
  map_fold (λ _ v acc, g v + acc) 0 m.

Definition sum_sizes (c : gmap N Z) : Z := msum id c.
Definition sum_totals (ms : gmap string FlatAccntMet) : Z := msum total ms.

(** sizes of the given chunks as recorded in the chunk map *)
Definition sizes_of (c : gmap N Z) (tss : list N) : list Z :=
  (λ ts, default 0 (c !! ts)) <$> tss.

Definition del_all (tss : list N) (c : gmap N Z) : gmap N Z :=
  foldl (λ c ts, delete ts c) c tss.

(** what [evict] does when the popped target's metric is in the ledger *)
Definition evicted (a : FlatAccnt) (target : EvictTarget) (l : list EvictTarget)
    (met : FlatAccntMet) : FlatAccnt :=
  let victims := evict_targets met target in
  let sizes := sizes_of (chunks met) victims in
  let met' := mkFlatAccntMet (sub_all (total met) sizes) (del_all victims (chunks met)) in
  let gone := total met' <=? 0 in
  mkFlatAccnt
    (if gone then delete (Metric target) (metrics a)
     else <[Metric target := met']> (metrics a))
    (maxSize a) l
    (evictQ a ++ (mkEvictTarget (Metric target) <$> victims)) (totalsSent a)
    (mkStats (sub_all (used a) sizes) (cacheSizeMax (stats a))
       (cacheChunkAdd (stats a))
       (cacheChunkEvict (stats a) + N.of_nat (length victims))%N
       (cacheMetricAdd (stats a))
       (if gone then N.succ (cacheMetricEvict (stats a))
        else cacheMetricEvict (stats a))).

(** [t] has a chunk entry in the byte ledger *)
Definition in_ledger (a : FlatAccnt) (t : EvictTarget) : Prop :=
  is_Some (metrics a !! Metric t ≫= λ met, chunks met !! Ts t).

#[global] Instance in_ledger_dec a t : Decision (in_ledger a t).
Proof. unfold in_ledger. apply _. Defined.

(** the totals agree with the sizes, modulo 2^64 *)
Record ledger_ok (a : FlatAccnt) : Prop := mkLedgerOk {
  ok_total : ∀ m met, metrics a !! m = Some met →
             total met = U64.wrap (sum_sizes (chunks met));
  ok_used : used a = U64.wrap (sum_totals (metrics a))
}.

(** every chunk of the ledger is in the recency index *)
Definition lru_covers (a : FlatAccnt) : Prop :=
  ∀ t, in_ledger a t → t ∈ lru a.

Record inv (a : FlatAccnt) : Prop := mkInv {
  inv_ledger : ledger_ok a;
  inv_covers : lru_covers a;
  inv_NoDup : NoDup (lru a)
}.

(** The states the event loop can be in at the test of its drain loop,
    for an accountant made by [NewFlatAccnt max]: it evicts while the
    cache is above the limit, and otherwise receives and applies the next
    event. *)
Inductive reachable (max : Z) : FlatAccnt → Prop :=
| reach_new : reachable max (NewFlatAccnt max)
| reach_event ev a :
    reachable max a → used a <= maxSize a → reachable max (apply_event ev a)
| reach_evict a :
    reachable max a → used a > maxSize a → reachable max (evict a).

(** a state with three chunks of one metric, the oldest-used being ts 2 *)
Definition three_chunks : FlatAccnt :=
  default (NewFlatAccnt 100)
    (eventLoop (NewFlatAccnt 100)
       [evnt_add_chnk s_a 2 5; evnt_add_chnk s_a 1 5; evnt_add_chnk s_a 7 5]).

Definition three_chunks_met : FlatAccntMet :=
  mkFlatAccntMet 15 (<[7%N := 5]> (<[1%N := 5]> {[2%N := 5]})).

(** the state in the drain loop after a fourth chunk went over the limit *)
Definition over_limit : FlatAccnt :=
  apply_event (evnt_add_chnk s_a 4 10)
    (apply_event (evnt_add_chnk s_a 3 10)
       (apply_event (evnt_add_chnk s_a 2 10)
          (apply_event (evnt_add_chnk s_a 1 10) (NewFlatAccnt 30)))).

(** the state after a hit on a chunk the ledger does not know *)
Definition hit_unknown : FlatAccnt :=
  default (NewFlatAccnt 100)
    (eventLoop (NewFlatAccnt 100) [evnt_hit_chnk s_a 1]).

(** the add events among those the loop gets to before it stops *)
Fixpoint adds_processed (events : list FlatAccntEvent) : N :=
  match events with
  | [] => 0
  | evnt_stop :: _ => 0
  | evnt_add_chnk _ _ _ :: events => N.succ (adds_processed events)
  | _ :: events => adds_processed events
  end.

(** * The event queue and the public API

    The buffered channel [eventQ] is the list of the events sent and not
    yet received, oldest first.  A send inside a [select] with a [default]
    branch goes through exactly when the buffer has room; otherwise [act]
    logs an error and the event is gone.  The second component counts the
    logged errors. *)

Definition evictQSize : Z := 1000.

Definition eventQSize : Z := 100000.

Definition act (ev : FlatAccntEvent) (q : list FlatAccntEvent * N)
  : list FlatAccntEvent * N :=
  if Z.of_nat (length q.1) <? eventQSize
  then (q.1 ++ [ev], q.2)
  else (q.1, N.succ q.2).

Definition DelMetric (metric : string) := act (evnt_del_met metric).

Definition AddChunk (metric : string) (ts : N) (sz : Z) :=
  act (evnt_add_chnk metric ts sz).

Definition HitChunk (metric : string) (ts : N) := act (evnt_hit_chnk metric ts).

Definition Stop := act evnt_stop.

Definition Reset := act evnt_reset.

(** * Further definitions for statements *)

(** the size the ledger has on record for a chunk *)
Definition chunk_size (a : FlatAccnt) (t : EvictTarget) : option Z :=
  metrics a !! Metric t ≫= λ met, chunks met !! Ts t.

(** the sizes of all chunks of the ledger, summed up without wrap-around *)
Definition ledger_bytes (a : FlatAccnt) : Z :=
  msum (λ met, sum_sizes (chunks met)) (metrics a).

(** The part of the state the accountant decides on: ledger, limit,
    recency index and [cacheSizeUsed]; the evict queue, the replies and
    the other statistics are blanked. *)
Definition erase (a : FlatAccnt) : FlatAccnt :=
  mkFlatAccnt (metrics a) (maxSize a) (lru a) [] []
              (mkStats (used a) 0 0 0 0 0).

(** how often an id occurs in a list of ids *)
Definition occurrences (t : EvictTarget) (l : list EvictTarget) : nat :=
  length (filter (λ x, x = t) l).

(** how many add events for the chunk [t] the loop gets to before it
    stops *)
Fixpoint adds_of (t : EvictTarget) (events : list FlatAccntEvent) : nat :=
  match events with
  | [] => 0
  | evnt_stop :: _ => 0
  | evnt_add_chnk metric ts _ :: events =>
      (if decide (mkEvictTarget metric ts = t) then 1 else 0) + adds_of t events
  | _ :: events => adds_of t events
  end.

(** every metric of the ledger has a chunk *)
Definition no_empty_metric (a : FlatAccnt) : Prop :=
  ∀ m met, metrics a !! m = Some met → chunks met ≠ ∅.

(** two chunks of 5 bytes each, of different metrics, within a limit of 20 *)
Definition two_metrics : FlatAccnt :=
  apply_event (evnt_add_chnk s_b 1 5)
    (apply_event (evnt_add_chnk s_a 1 5) (NewFlatAccnt 20)).

(** the metric entries an event takes out of the ledger by itself, in the
    switch of the loop: one for the deletion of a metric that is there,
    all of them for a reset *)
Definition entries_dropped (ev : FlatAccntEvent) (a : FlatAccnt) : N :=
  match ev with
  | evnt_del_met metric =>
      match metrics a !! metric with Some _ => 1 | None => 0 end
  | evnt_reset => N.of_nat (size (metrics a))
  | _ => 0
  end.

(** the same, summed up over the events the loop processes from [a] on *)
Fixpoint entries_dropped_by (a : FlatAccnt) (events : list FlatAccntEvent) : N :=
  match events with
  | [] => 0
  | evnt_stop :: _ => 0
  | ev :: events =>
      entries_dropped ev a
      + match drain (apply_event ev a) with
        | Some a => entries_dropped_by a events
        | None => 0
        end
  end.

(** * Scenarios *)

Example scenario_basic_fill :
  (λ r, (used <$> r, evictQ <$> r))
    (eventLoop (NewFlatAccnt 30)
       [evnt_add_chnk s_a 1 10; evnt_add_chnk s_a 2 10;
        evnt_add_chnk s_a 3 10; evnt_add_chnk s_a 4 10])
  = (Some 30, Some [mkEvictTarget s_a 1]).
Proof. vm_compute. reflexivity. Qed.

Example scenario_batched_by_chronology :
  (λ r, (used <$> r, evictQ <$> r, lru <$> r))
    (eventLoop (NewFlatAccnt 40)
       [evnt_add_chnk s_a 1 10; evnt_add_chnk s_a 2 10;
        evnt_add_chnk s_a 3 10; evnt_add_chnk s_a 4 10;
        evnt_hit_chnk s_a 3; evnt_add_chnk s_a 5 10])
  = (Some 40, Some [mkEvictTarget s_a 1],
     Some [mkEvictTarget s_a 2; mkEvictTarget s_a 4;
           mkEvictTarget s_a 3; mkEvictTarget s_a 5]).
Proof. vm_compute. reflexivity. Qed.

Example scenario_cross_metric :
  (λ r, (used <$> r, evictQ <$> r))
    (eventLoop (NewFlatAccnt 20)
       [evnt_add_chnk s_a 1 10; evnt_add_chnk s_b 1 10;
        evnt_hit_chnk s_a 1; evnt_add_chnk s_c 1 10])
  = (Some 20, Some [mkEvictTarget s_b 1]).
Proof. vm_compute. reflexivity. Qed.

Example scenario_metric_deletion :
  (λ r, (used <$> r, evictQ <$> r, lru <$> r))
    (eventLoop (NewFlatAccnt 100)
       [evnt_add_chnk s_a 1 10; evnt_add_chnk s_a 2 10; evnt_del_met s_a])
  = (Some 0, Some [], Some []).
Proof. vm_compute. reflexivity. Qed.

(** * Arithmetic modulo 2^64 *)

Lemma wrap_range z : U64.in_range (U64.wrap z).
Proof. unfold U64.in_range, U64.wrap, U64.modulus. apply Z.mod_pos_bound. lia. Qed.

Lemma wrap_id z : U64.in_range z → U64.wrap z = z.
Proof. unfold U64.in_range, U64.wrap. intros. by apply Z.mod_small. Qed.

Lemma wrap_wrap z : U64.wrap (U64.wrap z) = U64.wrap z.
Proof. apply wrap_id, wrap_range. Qed.

Lemma wrap_add_l x y : U64.wrap (U64.wrap x + y) = U64.wrap (x + y).
Proof. unfold U64.wrap, U64.modulus. by rewrite Zplus_mod_idemp_l. Qed.

Lemma wrap_sub_l x y : U64.wrap (U64.wrap x - y) = U64.wrap (x - y).
Proof. unfold U64.wrap, U64.modulus. by rewrite Zminus_mod_idemp_l. Qed.

Lemma sub_add_cancel x y : U64.in_range x → U64.sub (U64.add x y) (U64.add 0 y) = x.
Proof.
  intros Hx. unfold U64.sub, U64.add. rewrite wrap_sub_l.
  unfold U64.wrap. rewrite Zminus_mod_idemp_r.
  replace (x + y - (0 + y)) with x by lia. by apply wrap_id.
Qed.

Lemma foldl_cons {A B} (f : A → B → A) (a : A) (x : B) (l : list B) :
  foldl f a (x :: l) = foldl f (f a x) l.
Proof. reflexivity. Qed.

Lemma sub_all_wrap sizes : ∀ x,
  U64.wrap x = x → sub_all x sizes = U64.wrap (x - sum_list_Z sizes).
Proof.
  induction sizes as [|s sizes IH]; intros x Hx; simpl.
  - by rewrite Z.sub_0_r.
  - unfold sub_all in IH. rewrite IH by apply wrap_wrap.
    unfold U64.sub. rewrite wrap_sub_l. f_equal. lia.
Qed.

(** * Sums over maps *)

Section msum.
Context `{Countable K} {A : Type} (g : A → Z).

Lemma msum_empty : msum g (∅ : gmap K A) = 0.
Proof. apply map_fold_empty. Qed.

Lemma msum_insert_None (m : gmap K A) k v :
  m !! k = None → msum g (<[k := v]> m) = g v + msum g m.
Proof.
  intros Hk. unfold msum. rewrite map_fold_insert_L; [done| |done].
  intros. lia.
Qed.

Lemma msum_delete (m : gmap K A) k v :
  m !! k = Some v → msum g (delete k m) = msum g m - g v.
Proof.
  intros Hk. unfold msum.
  rewrite (map_fold_delete_L _ _ k v m); [lia| |done].
  intros. lia.
Qed.

Lemma msum_insert_Some (m : gmap K A) k v old :
  m !! k = Some old → msum g (<[k := v]> m) = msum g m - g old + g v.
Proof.
  intros Hk. rewrite <-insert_delete_eq.
  rewrite msum_insert_None by apply lookup_delete_eq.
  rewrite (msum_delete m k old) by done. lia.
Qed.

Lemma msum_zero (m : gmap K A) :
  (∀ k v, m !! k = Some v → g v = 0) → msum g m = 0.
Proof.
  induction m as [|k v m Hk IH] using map_ind; intros Hz.
  - apply msum_empty.
  - rewrite msum_insert_None by done.
    rewrite (Hz k v) by apply lookup_insert_eq.
    rewrite IH; [done|]. intros k' v' Hk'. apply (Hz k').
    rewrite lookup_insert_ne; [done|]. intros ->. congruence.
Qed.
End msum.

(** * The recency index *)

Lemma elem_of_del x id (l : list EvictTarget) : x ∈ LRU.del id l ↔ x ∈ l ∧ x ≠ id.
Proof. unfold LRU.del. rewrite list_elem_of_filter. tauto. Qed.

Lemma del_absent id (l : list EvictTarget) : id ∉ l → LRU.del id l = l.
Proof.
  unfold LRU.del. induction l as [|x l IH]; intros Hid; [done|].
  rewrite not_elem_of_cons in Hid. destruct Hid as [Hx Hl].
  rewrite filter_cons_True by congruence. by rewrite IH.
Qed.

Lemma touch_del id (l : list EvictTarget) : LRU.touch id l = LRU.del id l ++ [id].
Proof. unfold LRU.touch. case_decide; [done|]. by rewrite del_absent. Qed.

Lemma elem_of_touch x id (l : list EvictTarget) : x ∈ LRU.touch id l ↔ x = id ∨ x ∈ l.
Proof.
  rewrite touch_del, elem_of_app, elem_of_del, list_elem_of_singleton.
  destruct (decide (x = id)); tauto.
Qed.

Lemma NoDup_del id (l : list EvictTarget) : NoDup l → NoDup (LRU.del id l).
Proof. apply NoDup_filter. Qed.

Lemma NoDup_touch id (l : list EvictTarget) : NoDup l → NoDup (LRU.touch id l).
Proof.
  intros Hl. rewrite touch_del. apply NoDup_app. split_and!.
  - by apply NoDup_del.
  - intros x Hx Hid. apply elem_of_del in Hx as [_ Hx].
    by apply list_elem_of_singleton in Hid.
  - apply NoDup_singleton.
Qed.

Lemma del_app id (l k : list EvictTarget) :
  LRU.del id (l ++ k) = LRU.del id l ++ LRU.del id k.
Proof. apply filter_app. Qed.

Lemma del_del id (l : list EvictTarget) : LRU.del id (LRU.del id l) = LRU.del id l.
Proof. apply del_absent. rewrite elem_of_del. tauto. Qed.

Lemma del_touch id (l : list EvictTarget) : LRU.del id (LRU.touch id l) = LRU.del id l.
Proof.
  rewrite touch_del, del_app, del_del. unfold LRU.del at 2.
  rewrite filter_cons_False by tauto. by rewrite filter_nil, app_nil_r.
Qed.

Lemma touch_touch id (l : list EvictTarget) :
  LRU.touch id (LRU.touch id l) = LRU.touch id l.
Proof. by rewrite (touch_del id (LRU.touch id l)), del_touch, touch_del. Qed.

(** the deletions of [delMet] remove exactly the given chunks of the metric *)
Lemma elem_of_del_keys metric x (tss : list N) : ∀ l : list EvictTarget,
  x ∈ foldl (λ l ts, LRU.del (mkEvictTarget metric ts) l) l tss
  ↔ x ∈ l ∧ ¬ (Metric x = metric ∧ Ts x ∈ tss).
Proof.
  induction tss as [|ts tss IH]; intros l; simpl.
  - split; [|tauto]. intros Hx. split; [done|]. intros [_ Hn].
    by apply not_elem_of_nil in Hn.
  - rewrite IH, elem_of_del, elem_of_cons. destruct x as [m t]; simpl.
    split.
    + intros [[Hl Hne] Hn]. split; [done|]. intros [-> [->|Ht]]; tauto.
    + intros [Hl Hn]. split_and!; [done| |tauto]. intros [= -> ->]. tauto.
Qed.

Lemma filter_all (P : EvictTarget → Prop) `{!∀ x, Decision (P x)}
    (l : list EvictTarget) :
  (∀ x, P x) → filter P l = l.
Proof.
  intros HP. induction l as [|x l IH]; [done|].
  rewrite filter_cons_True by done. by rewrite IH.
Qed.

(** The deletions of [delMet] in closed form: the order in which the map
    hands out its keys does not matter. *)
Lemma del_keys_filter metric (tss : list N) : ∀ l : list EvictTarget,
  foldl (λ l ts, LRU.del (mkEvictTarget metric ts) l) l tss
  = filter (λ x, ¬ (Metric x = metric ∧ Ts x ∈ tss)) l.
Proof.
  induction tss as [|ts tss IH]; intros l.
  - simpl. rewrite filter_all; [done|].
    intros x [_ Hin]. by apply not_elem_of_nil in Hin.
  - rewrite foldl_cons, IH. unfold LRU.del. rewrite list_filter_filter.
    apply list_filter_iff. intros [m t]. simpl. rewrite elem_of_cons. split.
    + intros [Hn Hne] [-> [->|Hin]]; tauto.
    + intros Hn. split; [tauto|]. intros [= -> ->]. tauto.
Qed.

Lemma del_keys_Permutation metric (tss tss' : list N) (l : list EvictTarget) :
  tss ≡ₚ tss' →
  foldl (λ l ts, LRU.del (mkEvictTarget metric ts) l) l tss
  = foldl (λ l ts, LRU.del (mkEvictTarget metric ts) l) l tss'.
Proof.
  intros Hp. rewrite !del_keys_filter. apply list_filter_iff.
  intros x. by rewrite Hp.
Qed.

Lemma NoDup_del_keys metric (tss : list N) : ∀ l : list EvictTarget,
  NoDup l → NoDup (foldl (λ l ts, LRU.del (mkEvictTarget metric ts) l) l tss).
Proof.
  induction tss as [|ts tss IH]; intros l Hl; simpl; [done|].
  by apply IH, NoDup_del.
Qed.

(** * The chunks of a metric *)

Lemma elem_of_chunk_keys met ts : ts ∈ chunk_keys met ↔ is_Some (chunks met !! ts).
Proof.
  unfold chunk_keys. rewrite list_elem_of_fmap. split.
  - intros [[k v] [-> Hkv]]. apply elem_of_map_to_list in Hkv. by exists v.
  - intros [v Hv]. exists (ts, v). split; [done|]. by apply elem_of_map_to_list.
Qed.

Lemma NoDup_chunk_keys met : NoDup (chunk_keys met).
Proof. apply NoDup_fst_map_to_list. Qed.

Lemma elem_of_evict_targets met target ts :
  ts ∈ evict_targets met target
  ↔ is_Some (chunks met !! ts) ∧ (ts ≤ Ts target)%N.
Proof.
  unfold evict_targets, sort_Uint32Asc.
  rewrite merge_sort_Permutation, list_elem_of_filter, elem_of_chunk_keys. tauto.
Qed.

Lemma NoDup_evict_targets met target : NoDup (evict_targets met target).
Proof.
  unfold evict_targets, sort_Uint32Asc. rewrite merge_sort_Permutation.
  apply NoDup_filter, NoDup_chunk_keys.
Qed.

#[local] Instance N_le_total : Total N.le.
Proof. intros x y. lia. Qed.

Lemma evict_targets_sorted met target :
  StronglySorted N.le (evict_targets met target).
Proof. unfold evict_targets, sort_Uint32Asc. apply StronglySorted_merge_sort; apply _. Qed.

(** sorting makes the targets independent of the order in which the map
    hands out its keys *)
Lemma sort_Uint32Asc_Permutation (l l' : list N) :
  l ≡ₚ l' → sort_Uint32Asc l = sort_Uint32Asc l'.
Proof.
  intros Hp. unfold sort_Uint32Asc.
  apply (StronglySorted_unique N.le).
  - apply StronglySorted_merge_sort; apply _.
  - apply StronglySorted_merge_sort; apply _.
  - by rewrite !merge_sort_Permutation.
Qed.

(** strictly ascending: a map has no key twice *)
Lemma sorted_NoDup_lt (l : list N) :
  StronglySorted N.le l → NoDup l → StronglySorted N.lt l.
Proof.
  induction 1 as [|x l Hl IH Hx]; intros Hnd; [constructor|].
  apply NoDup_cons in Hnd as [Hxl Hnd]. constructor; [by apply IH|].
  rewrite Forall_forall in Hx |- *. intros y Hy.
  specialize (Hx y Hy). assert (x ≠ y) by (intros ->; done). lia.
Qed.

Lemma evict_targets_ascending met target :
  StronglySorted N.lt (evict_targets met target).
Proof.
  apply sorted_NoDup_lt; [apply evict_targets_sorted|apply NoDup_evict_targets].
Qed.

(** * The eviction loop in closed form *)

Lemma lookup_del_all (tss : list N) : ∀ (c : gmap N Z) ts,
  del_all tss c !! ts = if decide (ts ∈ tss) then None else c !! ts.
Proof.
  induction tss as [|t tss IH]; intros c ts.
  - rewrite decide_False; [done|]. apply not_elem_of_nil.
  - unfold del_all in *. rewrite foldl_cons, IH.
    destruct (decide (ts = t)) as [->|Hne].
    + rewrite lookup_delete_eq, (decide_True (P := t ∈ t :: tss)).
      * by case_decide.
      * apply list_elem_of_here.
    + rewrite lookup_delete_ne by done.
      destruct (decide (ts ∈ tss)) as [Hin|Hin].
      * rewrite decide_True; [done|]. by apply list_elem_of_further.
      * rewrite decide_False; [done|]. rewrite not_elem_of_cons. tauto.
Qed.

Lemma sizes_of_delete (c : gmap N Z) t (tss : list N) :
  t ∉ tss → sizes_of (delete t c) tss = sizes_of c tss.
Proof.
  intros Ht. unfold sizes_of. apply list_fmap_ext. intros i ts Hts.
  rewrite lookup_delete_ne; [done|]. intros ->.
  apply Ht. by eapply list_elem_of_lookup_2.
Qed.

Lemma evict_chunks_spec metric (tss : list N) : ∀ met a,
  NoDup tss → metrics a !! metric = Some met →
  foldl (evict_chunk metric) (met, a) tss =
    let sizes := sizes_of (chunks met) tss in
    let met' := mkFlatAccntMet (sub_all (total met) sizes) (del_all tss (chunks met)) in
    (met',
     mkFlatAccnt (<[metric := met']> (metrics a)) (maxSize a) (lru a)
       (evictQ a ++ (mkEvictTarget metric <$> tss)) (totalsSent a)
       (mkStats (sub_all (used a) sizes) (cacheSizeMax (stats a))
          (cacheChunkAdd (stats a))
          (cacheChunkEvict (stats a) + N.of_nat (length tss))%N
          (cacheMetricAdd (stats a)) (cacheMetricEvict (stats a)))).
Proof.
  induction tss as [|ts tss IH]; intros met a Hnd Hmet.
  - simpl. destruct met as [tot c]; simpl in *. rewrite insert_id by done.
    destruct a as [ms mx l q r [u sm ca ce ma me]]; simpl.
    by rewrite app_nil_r, N.add_0_r.
  - apply NoDup_cons in Hnd as [Hts Hnd].
    rewrite foldl_cons. unfold evict_chunk at 2.
    rewrite IH; [|done|by cbn; rewrite lookup_insert_eq].
    cbn [total chunks metrics maxSize lru evictQ totalsSent stats used
         set_metrics send_evictQ Inc_cacheChunkEvict DecUint64_used set_stats
         set_used cacheSizeUsed cacheSizeMax cacheChunkAdd cacheChunkEvict
         cacheMetricAdd cacheMetricEvict].
    rewrite sizes_of_delete by done. rewrite insert_insert_eq.
    rewrite <-app_assoc.
    assert (∀ c n, (N.succ c + N.of_nat n = c + N.of_nat (S n))%N) as -> by lia.
    reflexivity.
Qed.

Lemma sub_all_range sizes : ∀ x, U64.in_range x → U64.in_range (sub_all x sizes).
Proof.
  induction sizes as [|s sizes IH]; intros x Hx; [done|].
  unfold sub_all. rewrite foldl_cons. apply IH, wrap_range.
Qed.

Lemma evict_empty a : lru a = [] → evict a = a.
Proof. intros Hl. unfold evict. by rewrite Hl. Qed.

Lemma evict_missing a target l :
  lru a = target :: l → metrics a !! Metric target = None →
  evict a = set_lru l a.
Proof. intros Hl Hm. unfold evict. rewrite Hl. simpl. by rewrite Hm. Qed.

Lemma evict_found a target l met :
  lru a = target :: l → metrics a !! Metric target = Some met →
  evict a = evicted a target l met.
Proof.
  intros Hl Hm. unfold evict. rewrite Hl. simpl. rewrite Hm.
  rewrite evict_chunks_spec; [|apply NoDup_evict_targets|done].
  unfold evicted. cbn zeta. cbn [total].
  destruct (sub_all _ _ <=? 0); [|done].
  cbn. by rewrite delete_insert_eq.
Qed.

Lemma del_all_evict_targets met target :
  del_all (evict_targets met target) (chunks met)
  = filter (λ kv, ¬ (kv.1 ≤ Ts target)%N) (chunks met).
Proof.
  apply map_eq. intros ts. rewrite lookup_del_all.
  destruct (decide (ts ∈ evict_targets met target)) as [Hin|Hin].
  - symmetry. apply map_lookup_filter_None. right. intros sz _.
    apply elem_of_evict_targets in Hin as [_ Hle]. simpl. tauto.
  - rewrite elem_of_evict_targets in Hin.
    destruct (chunks met !! ts) as [sz|] eqn:Hts.
    + symmetry. apply map_lookup_filter_Some. split; [done|]. simpl.
      intros Hle. apply Hin. by split.
    + symmetry. apply map_lookup_filter_None. by left.
Qed.

Lemma sizes_of_present (c : gmap N Z) (tss : list N) :
  (∀ ts, ts ∈ tss → is_Some (c !! ts)) →
  Forall2 (λ ts sz, c !! ts = Some sz) tss (sizes_of c tss).
Proof.
  induction tss as [|ts tss IH]; intros Hp; [constructor|].
  unfold sizes_of. rewrite fmap_cons. constructor.
  - destruct (Hp ts) as [sz ->]; [apply list_elem_of_here|done].
  - apply IH. intros t Ht. by apply Hp, list_elem_of_further.
Qed.

(** * Invariants of the accountant *)

Lemma in_ledger_lookup a t :
  in_ledger a t
  ↔ ∃ met, metrics a !! Metric t = Some met ∧ is_Some (chunks met !! Ts t).
Proof.
  unfold in_ledger. destruct (metrics a !! Metric t) as [met|]; simpl.
  - split; [by exists met|]. by intros (? & [= <-] & ?).
  - split; [by intros []|]. by intros (? & [=] & ?).
Qed.

Lemma wrap_add_r x y : U64.wrap (x + U64.wrap y) = U64.wrap (x + y).
Proof. by rewrite Z.add_comm, wrap_add_l, Z.add_comm. Qed.

Lemma inv_New maxSize : inv (NewFlatAccnt maxSize).
Proof.
  split; [split| |]; simpl.
  - intros m met. by rewrite lookup_empty.
  - unfold used, sum_totals. simpl. by rewrite msum_empty.
  - intros t. unfold in_ledger. simpl. rewrite lookup_empty. by intros [].
  - constructor.
Qed.

(** ** [add] *)

Lemma add_new_metric metric ts sz a :
  metrics a !! metric = None →
  add metric ts sz a =
    AddUint64_used sz
      (Inc_cacheMetricAdd
         (set_metrics (<[metric := mkFlatAccntMet (U64.add 0 sz) {[ts := sz]}]> (metrics a)) a)).
Proof.
  intros Hm. unfold add. rewrite Hm. cbn. rewrite lookup_empty.
  by rewrite insert_insert_eq, insert_empty.
Qed.

Lemma add_known_chunk metric ts sz a met :
  metrics a !! metric = Some met → is_Some (chunks met !! ts) →
  add metric ts sz a = a.
Proof. intros Hm [old Hts]. unfold add. by rewrite Hm, Hts. Qed.

Lemma add_new_chunk metric ts sz a met :
  metrics a !! metric = Some met → chunks met !! ts = None →
  add metric ts sz a =
    AddUint64_used sz
      (set_metrics
         (<[metric := mkFlatAccntMet (U64.add (total met) sz) (<[ts := sz]> (chunks met))]>
            (metrics a)) a).
Proof. intros Hm Hts. unfold add. by rewrite Hm, Hts. Qed.

Lemma add_lru metric ts sz a : lru (add metric ts sz a) = lru a.
Proof.
  unfold add. destruct (metrics a !! metric) as [met|]; cbn; by destruct (_ !! ts).
Qed.

Lemma add_ledger_ok metric ts sz a : ledger_ok a → ledger_ok (add metric ts sz a).
Proof.
  intros [Ht Hu]. destruct (metrics a !! metric) as [met|] eqn:Hm.
  - destruct (chunks met !! ts) as [old|] eqn:Hts.
    { by erewrite add_known_chunk. }
    rewrite (add_new_chunk _ _ _ _ met) by done. split.
    + cbn. intros m met'. destruct (decide (m = metric)) as [->|Hne].
      * rewrite lookup_insert_eq. intros [= <-]. cbn.
        unfold sum_sizes. rewrite msum_insert_None by done.
        unfold U64.add. rewrite (Ht _ _ Hm), wrap_add_l. f_equal.
        unfold sum_sizes, id. lia.
      * rewrite lookup_insert_ne by done. apply Ht.
    + unfold used in *. cbn. unfold sum_totals in *.
      rewrite (msum_insert_Some _ _ _ _ met) by done. cbn.
      unfold used. cbn. rewrite Hu. unfold U64.add.
      rewrite wrap_add_l, wrap_add_r. f_equal. lia.
  - rewrite add_new_metric by done. split.
    + cbn. intros m met'. destruct (decide (m = metric)) as [->|Hne].
      * rewrite lookup_insert_eq. intros [= <-]. cbn.
        unfold sum_sizes. rewrite <-insert_empty, msum_insert_None by apply lookup_empty.
        rewrite msum_empty. unfold U64.add, id. f_equal. lia.
      * rewrite lookup_insert_ne by done. apply Ht.
    + unfold used in *. cbn. unfold sum_totals in *.
      rewrite msum_insert_None by done. cbn.
      unfold used. cbn. rewrite Hu. unfold U64.add.
      rewrite wrap_add_l, wrap_add_l. f_equal. lia.
Qed.

Lemma add_in_ledger metric ts sz a t :
  in_ledger (add metric ts sz a) t ↔ in_ledger a t ∨ t = mkEvictTarget metric ts.
Proof.
  destruct t as [m k]. rewrite !in_ledger_lookup. cbn.
  destruct (metrics a !! metric) as [met|] eqn:Hm.
  - destruct (chunks met !! ts) as [old|] eqn:Hts.
    { erewrite add_known_chunk by done. split; [tauto|].
      intros [?|[= -> ->]]; [done|]. by exists met. }
    rewrite (add_new_chunk _ _ _ _ met) by done. cbn.
    destruct (decide (m = metric)) as [->|Hne].
    + rewrite lookup_insert_eq. rewrite Hm. split.
      * intros (? & [= <-] & Hk). cbn in Hk.
        destruct (decide (k = ts)) as [->|Hk']; [by right|].
        rewrite lookup_insert_ne in Hk by done. left. by exists met.
      * intros [(? & [= <-] & Hk)|[= ->]]; eexists; (split; [done|]); cbn.
        -- destruct (decide (k = ts)) as [->|Hk'];
             [by rewrite lookup_insert_eq|by rewrite lookup_insert_ne].
        -- by rewrite lookup_insert_eq.
    + rewrite lookup_insert_ne by done. split; [tauto|].
      intros [?|[= -> ->]]; tauto.
  - rewrite add_new_metric by done. cbn.
    destruct (decide (m = metric)) as [->|Hne].
    + rewrite lookup_insert_eq, Hm. split.
      * intros (? & [= <-] & Hk). cbn in Hk.
        destruct (decide (k = ts)) as [->|Hk']; [by right|].
        rewrite lookup_singleton_ne in Hk by done. by destruct Hk.
      * intros [(? & [=] & _)|[= ->]]. eexists. split; [done|]. cbn.
        by rewrite lookup_singleton_eq.
    + rewrite lookup_insert_ne by done. split; [tauto|].
      intros [?|[= -> ->]]; tauto.
Qed.

(** ** [delMet] *)

Lemma delMet_absent metric a : metrics a !! metric = None → delMet metric a = a.
Proof. intros Hm. unfold delMet. by rewrite Hm. Qed.

Lemma delMet_present metric a met :
  metrics a !! metric = Some met →
  delMet metric a =
    set_metrics (delete metric (metrics a))
      (DecUint64_used (total met)
         (set_lru (foldl (λ l ts, LRU.del (mkEvictTarget metric ts) l)
                         (lru a) (chunk_keys met)) a)).
Proof. intros Hm. unfold delMet. by rewrite Hm. Qed.

Lemma delMet_inv metric a : inv a → inv (delMet metric a).
Proof.
  intros [[Ht Hu] Hc Hnd]. destruct (metrics a !! metric) as [met|] eqn:Hm.
  2:{ by rewrite delMet_absent. }
  rewrite (delMet_present _ _ met) by done. split; [split| |]; cbn.
  - intros m met'. rewrite lookup_delete_Some. intros [_ Hm']. by eapply Ht.
  - unfold used in *. cbn. unfold sum_totals in *.
    rewrite (msum_delete _ _ _ met) by done.
    unfold used. cbn. rewrite Hu. unfold U64.sub. by rewrite wrap_sub_l.
  - intros t. rewrite in_ledger_lookup. cbn.
    intros (met' & Hm' & Hk). apply lookup_delete_Some in Hm' as [Hne Hm'].
    apply elem_of_del_keys. split.
    + apply Hc, in_ledger_lookup. by exists met'.
    + intros [Heq _]. by apply Hne.
  - by apply NoDup_del_keys.
Qed.

(** ** [evict] *)

Lemma msum_delete_default `{Countable K} {A} (g : A → Z) (m : gmap K A) k :
  msum g (delete k m) = msum g m - default 0 (g <$> m !! k).
Proof.
  destruct (m !! k) as [v|] eqn:Hk; simpl.
  - by apply msum_delete.
  - rewrite delete_id by done. lia.
Qed.

Lemma sum_sizes_del_all (tss : list N) : ∀ c : gmap N Z,
  NoDup tss →
  sum_sizes (del_all tss c) = sum_sizes c - sum_list_Z (sizes_of c tss).
Proof.
  induction tss as [|t tss IH]; intros c Hnd.
  - simpl. lia.
  - apply NoDup_cons in Hnd as [Ht Hnd]. unfold del_all in *.
    rewrite foldl_cons, IH by done. rewrite sizes_of_delete by done.
    unfold sum_sizes. rewrite msum_delete_default. simpl.
    destruct (c !! t); simpl; unfold id; lia.
Qed.

Lemma evicted_ledger_ok a target l met :
  ledger_ok a → metrics a !! Metric target = Some met →
  ledger_ok (evicted a target l met).
Proof.
  intros [Ht Hu] Hm.
  pose proof (Ht _ _ Hm) as Htot.
  assert (U64.wrap (total met) = total met) as Hw.
  { rewrite Htot. apply wrap_wrap. }
  assert (U64.wrap (used a) = used a) as Hwu.
  { rewrite Hu. apply wrap_wrap. }
  pose proof (sum_sizes_del_all (evict_targets met target) (chunks met)
                (NoDup_evict_targets met target)) as Hsum.
  unfold evicted. cbn zeta. cbn [total].
  set (sizes := sizes_of (chunks met) (evict_targets met target)) in *.
  pose proof (sub_all_wrap sizes _ Hw) as Htot'.
  pose proof (sub_all_wrap sizes _ Hwu) as Hused'.
  destruct (sub_all (total met) sizes <=? 0) eqn:Hz.
  - assert (sub_all (total met) sizes = 0) as Hzero.
    { apply Z.leb_le in Hz. pose proof (wrap_range (total met - sum_list_Z sizes)) as Hr.
      rewrite <-Htot' in Hr. unfold U64.in_range in Hr. lia. }
    split; cbn.
    + intros m met'. rewrite lookup_delete_Some. intros [_ Hm']. by eapply Ht.
    + rewrite Hused', Hu. unfold sum_totals in *.
      rewrite (msum_delete _ _ _ met) by done.
      rewrite wrap_sub_l.
      replace (msum total (metrics a) - sum_list_Z sizes)
        with (msum total (metrics a) - total met + (total met - sum_list_Z sizes)) by lia.
      rewrite <-wrap_add_r, <-Htot', Hzero. f_equal. lia.
  - split; cbn.
    + intros m met'. destruct (decide (m = Metric target)) as [->|Hne].
      * rewrite lookup_insert_eq. intros [= <-]. cbn.
        rewrite Hsum, Htot', Htot. by rewrite wrap_sub_l.
      * rewrite lookup_insert_ne by done. apply Ht.
    + rewrite Hused', Hu. unfold sum_totals in *.
      rewrite (msum_insert_Some _ _ _ _ met) by done. cbn.
      rewrite Htot', wrap_sub_l, wrap_add_r. f_equal. lia.
Qed.

Lemma evicted_in_ledger a target l met t :
  metrics a !! Metric target = Some met →
  in_ledger (evicted a target l met) t → in_ledger a t ∧ t ≠ target.
Proof.
  intros Hm. rewrite !in_ledger_lookup. unfold evicted. cbn zeta. cbn.
  intros (met' & Hm' & Hk).
  destruct (decide (Metric t = Metric target)) as [Heq|Hne].
  - rewrite Heq in *. destruct (_ <=? 0).
    { by rewrite lookup_delete_eq in Hm'. }
    rewrite lookup_insert_eq in Hm'. injection Hm' as <-. cbn in Hk.
    rewrite lookup_del_all in Hk. case_decide as Hin; [by destruct Hk|].
    split; [by exists met|]. intros ->. apply Hin.
    apply elem_of_evict_targets. split; [done|]. lia.
  - assert (metrics a !! Metric t = Some met') as Hm''.
    { destruct (_ <=? 0).
      - by rewrite lookup_delete_ne in Hm'.
      - by rewrite lookup_insert_ne in Hm'. }
    split; [by exists met'|]. by intros ->.
Qed.

Lemma evict_inv a : inv a → inv (evict a).
Proof.
  intros Hinv. destruct (lru a) as [|target l] eqn:Hl.
  { by rewrite evict_empty. }
  destruct Hinv as [Hok Hc Hnd]. rewrite Hl in Hnd.
  apply NoDup_cons in Hnd as [Htl Hnd].
  destruct (metrics a !! Metric target) as [met|] eqn:Hm.
  - rewrite (evict_found _ _ _ _ Hl Hm). split.
    + by apply evicted_ledger_ok.
    + intros t Ht. apply evicted_in_ledger in Ht as [Ht Hne]; [|done].
      apply Hc in Ht. rewrite Hl in Ht. apply elem_of_cons in Ht as [?|?]; done.
    + done.
  - rewrite (evict_missing _ _ _ Hl Hm). split.
    + destruct Hok as [Ht Hu]. by split.
    + intros t Ht. change (in_ledger a t) in Ht.
      pose proof (Hc t Ht) as Hin. rewrite Hl in Hin. cbn.
      apply elem_of_cons in Hin as [->|?]; [|done].
      apply in_ledger_lookup in Ht as (? & Hm' & _). congruence.
    + done.
Qed.

Lemma evict_maxSize a : maxSize (evict a) = maxSize a.
Proof.
  destruct (lru a) as [|target l] eqn:Hl; [by rewrite evict_empty|].
  destruct (metrics a !! Metric target) as [met|] eqn:Hm.
  - by rewrite (evict_found _ _ _ _ Hl Hm).
  - by rewrite (evict_missing _ _ _ Hl Hm).
Qed.

Lemma evict_lru a : lru (evict a) = tail (lru a).
Proof.
  destruct (lru a) as [|target l] eqn:Hl; [by rewrite evict_empty, Hl|].
  destruct (metrics a !! Metric target) as [met|] eqn:Hm.
  - by rewrite (evict_found _ _ _ _ Hl Hm).
  - by rewrite (evict_missing _ _ _ Hl Hm).
Qed.

(** ** Events *)

Lemma ledger_ok_ext a b :
  metrics b = metrics a → used b = used a → ledger_ok a → ledger_ok b.
Proof. intros Hm Hu [Ht Hs]. split; rewrite ?Hm, ?Hu; done. Qed.

Lemma in_ledger_ext a b t : metrics b = metrics a → in_ledger b t ↔ in_ledger a t.
Proof. intros Hm. unfold in_ledger. by rewrite Hm. Qed.

Lemma apply_event_inv ev a : inv a → inv (apply_event ev a).
Proof.
  intros Hinv. destruct ev as [metric ts|metric ts sz|metric| | |]; cbn [apply_event].
  - destruct Hinv as [Hok Hc Hnd]. split; cbn.
    + by apply (ledger_ok_ext a).
    + intros t Ht. apply elem_of_touch. right. by apply Hc.
    + by apply NoDup_touch.
  - destruct Hinv as [Hok Hc Hnd].
    pose proof (add_lru metric ts sz a) as Hl.
    split; cbn.
    + apply (ledger_ok_ext (add metric ts sz a)); [done..|]. by apply add_ledger_ok.
    + intros t Ht. rewrite Hl. apply elem_of_touch.
      apply (in_ledger_ext (add metric ts sz a)) in Ht; [|done].
      apply add_in_ledger in Ht as [Ht| ->]; [right; by apply Hc|by left].
    + rewrite Hl. by apply NoDup_touch.
  - by apply delMet_inv.
  - destruct Hinv as [Hok Hc Hnd]. split; [|done..].
    by apply (ledger_ok_ext a).
  - done.
  - split; [split| |]; cbn.
    + intros m met. by rewrite lookup_empty.
    + unfold used, sum_totals. cbn. by rewrite msum_empty.
    + intros t. unfold in_ledger. cbn. rewrite lookup_empty. by intros [].
    + constructor.
Qed.

Lemma apply_event_maxSize ev a : maxSize (apply_event ev a) = maxSize a.
Proof.
  destruct ev as [metric ts|metric ts sz|metric| | |]; cbn [apply_event]; try done.
  - unfold add. destruct (metrics a !! metric) as [met|]; cbn; by destruct (_ !! ts).
  - unfold delMet. by destruct (metrics a !! metric).
Qed.

(** ** The drain loop *)

(** with an empty recency index nothing is accounted for *)
Lemma inv_empty_used a : inv a → lru a = [] → used a = 0.
Proof.
  intros [[Ht Hu] Hc _] Hl. rewrite Hu. unfold sum_totals.
  rewrite msum_zero; [done|]. intros m met Hm.
  rewrite (Ht _ _ Hm). unfold sum_sizes. rewrite msum_zero; [done|].
  intros ts sz Hts. exfalso.
  assert (mkEvictTarget m ts ∈ lru a) as Hin.
  { apply Hc, in_ledger_lookup. exists met. by split. }
  rewrite Hl in Hin. by apply not_elem_of_nil in Hin.
Qed.

Lemma inv_used_range a : inv a → U64.in_range (used a).
Proof. intros [[_ Hu] _ _]. rewrite Hu. apply wrap_range. Qed.

Lemma drain_fuel_Some (P : FlatAccnt → Prop) :
  (∀ a, P a → used a > maxSize a → P (evict a)) →
  ∀ n a a', P a → drain_fuel n a = Some a' → P a' ∧ used a' <= maxSize a'.
Proof.
  intros Hstep. induction n as [|n IH]; intros a a' HP; simpl; [done|].
  destruct (used a >? maxSize a) eqn:Hgt.
  - apply IH, Hstep; [done|]. by apply Z.gtb_gt.
  - intros [= <-]. split; [done|]. lia.
Qed.

Lemma drain_fuel_terminates n : ∀ a,
  inv a → 0 <= maxSize a → (length (lru a) ≤ n)%nat →
  ∃ a', drain_fuel (S n) a = Some a'.
Proof.
  induction n as [|n IH]; intros a Hinv Hmax Hlen.
  - simpl. assert (used a = 0) as ->.
    { apply inv_empty_used; [done|]. apply length_zero_iff_nil. lia. }
    destruct (0 >? maxSize a) eqn:Hgt; [|by eexists].
    apply Z.gtb_gt in Hgt. lia.
  - change (drain_fuel (S (S n)) a)
      with (if used a >? maxSize a then drain_fuel (S n) (evict a) else Some a).
    destruct (used a >? maxSize a); [|by eexists].
    apply IH.
    + by apply evict_inv.
    + by rewrite evict_maxSize.
    + rewrite evict_lru. destruct (lru a); simpl in *; lia.
Qed.

Lemma drain_terminates a : inv a → 0 <= maxSize a → ∃ a', drain a = Some a'.
Proof. intros. by apply drain_fuel_terminates. Qed.

(** more fuel does not change the result *)
Lemma drain_fuel_mono n : ∀ a a' k,
  drain_fuel n a = Some a' → drain_fuel (n + k) a = Some a'.
Proof.
  induction n as [|n IH]; intros a a' k; simpl; [done|].
  destruct (used a >? maxSize a); [apply IH|done].
Qed.

(** Running out of the fuel of [drain] means the loop never stops: the
    index is empty by then, [evict] changes nothing any more, and the
    loop condition stays true. *)
Lemma drain_fuel_stuck n : ∀ a,
  lru a = [] → used a > maxSize a → drain_fuel n a = None.
Proof.
  induction n as [|n IH]; intros a Hl Hgt; simpl; [done|].
  apply Z.gtb_gt in Hgt as Hgt'. rewrite Hgt'.
  rewrite evict_empty by done. by apply IH.
Qed.

Lemma drain_None_forever a : drain a = None → ∀ n, drain_fuel n a = None.
Proof.
  unfold drain. remember (length (lru a)) as k eqn:Hk.
  revert a Hk. induction k as [|k IH]; intros a Hk Hnone n.
  - simpl in Hnone. destruct (used a >? maxSize a) eqn:Hgt; [|done].
    apply drain_fuel_stuck; [|by apply Z.gtb_gt].
    apply length_zero_iff_nil. lia.
  - change (drain_fuel (S (S k)) a)
      with (if used a >? maxSize a then drain_fuel (S k) (evict a) else Some a)
      in Hnone.
    destruct n as [|n]; [done|]. simpl.
    destruct (used a >? maxSize a) eqn:Hgt; [|done].
    apply IH; [|done]. rewrite evict_lru. destruct (lru a); simpl in *; lia.
Qed.

(** ** Reachable states *)

Lemma reachable_inv max a : reachable max a → inv a.
Proof.
  induction 1; [apply inv_New|by apply apply_event_inv|by apply evict_inv].
Qed.

Lemma reachable_maxSize max a : reachable max a → maxSize a = max.
Proof.
  induction 1; [done|by rewrite apply_event_maxSize|by rewrite evict_maxSize].
Qed.

Lemma drain_fuel_inv n a a' : inv a → drain_fuel n a = Some a' → inv a'.
Proof.
  intros Hinv Hd.
  by apply (drain_fuel_Some inv (λ a Ha _, evict_inv a Ha) n a a' Hinv) in Hd as [? _].
Qed.

Lemma drain_fuel_maxSize n a a' : drain_fuel n a = Some a' → maxSize a' = maxSize a.
Proof.
  intros Hd.
  apply (drain_fuel_Some (λ x, maxSize x = maxSize a)) in Hd as [? _]; [done| |done].
  intros x Hx _. by rewrite evict_maxSize.
Qed.

Lemma drain_fuel_reachable max n a a' :
  reachable max a → drain_fuel n a = Some a' →
  reachable max a' ∧ used a' <= maxSize a'.
Proof. apply drain_fuel_Some. intros x Hx Hgt. by apply reach_evict. Qed.

Lemma eventLoop_cons ev events a :
  ev ≠ evnt_stop →
  eventLoop a (ev :: events) =
    drain (apply_event ev a) ≫= λ a, eventLoop a events.
Proof. intros Hev. by destruct ev. Qed.

Lemma eventLoop_inv events : ∀ a a', inv a → eventLoop a events = Some a' → inv a'.
Proof.
  induction events as [|ev events IH]; intros a a' Hinv; [by intros [= <-]|].
  destruct (decide (ev = evnt_stop)) as [->|Hev]; [by intros [= <-]|].
  rewrite eventLoop_cons by done.
  destruct (drain (apply_event ev a)) as [a1|] eqn:Hd; [|done]. cbn.
  apply IH. eapply drain_fuel_inv; [|done]. by apply apply_event_inv.
Qed.

Lemma eventLoop_maxSize events : ∀ a a',
  eventLoop a events = Some a' → maxSize a' = maxSize a.
Proof.
  induction events as [|ev events IH]; intros a a'; [by intros [= <-]|].
  destruct (decide (ev = evnt_stop)) as [->|Hev]; [by intros [= <-]|].
  rewrite eventLoop_cons by done.
  destruct (drain (apply_event ev a)) as [a1|] eqn:Hd; [|done]. cbn.
  intros Ha'. rewrite (IH _ _ Ha'), (drain_fuel_maxSize _ _ _ Hd).
  apply apply_event_maxSize.
Qed.

Lemma eventLoop_reachable max events : ∀ a a',
  reachable max a → used a <= maxSize a → eventLoop a events = Some a' →
  reachable max a' ∧ used a' <= maxSize a'.
Proof.
  induction events as [|ev events IH]; intros a a' Hr Hq; [by intros [= <-]|].
  destruct (decide (ev = evnt_stop)) as [->|Hev]; [by intros [= <-]|].
  rewrite eventLoop_cons by done.
  destruct (drain (apply_event ev a)) as [a1|] eqn:Hd; [|done]. cbn.
  apply (drain_fuel_reachable max) in Hd as [Hr1 Hq1]; [|by apply reach_event].
  by apply IH.
Qed.

(** the event loop gets through every finite sequence of events *)
Lemma eventLoop_terminates events : ∀ a,
  inv a → 0 <= maxSize a → ∃ a', eventLoop a events = Some a'.
Proof.
  induction events as [|ev events IH]; intros a Hinv Hmax; [by eexists|].
  destruct (decide (ev = evnt_stop)) as [->|Hev]; [by eexists|].
  rewrite eventLoop_cons by done.
  destruct (drain_terminates (apply_event ev a)) as [a1 Hd].
  { by apply apply_event_inv. }
  { by rewrite apply_event_maxSize. }
  rewrite Hd. cbn. apply IH.
  - eapply drain_fuel_inv; [|done]. by apply apply_event_inv.
  - by rewrite (drain_fuel_maxSize _ _ _ Hd), apply_event_maxSize.
Qed.

(** * Properties of the accountant *)

(** ** Batched eviction *)

(** C1: when [evict] pops a target whose metric is in the ledger, the
    evicted chunks are exactly the chunks of that metric with
    [ts <= target.Ts]; they go onto the evict queue in ascending order of
    ts; the size of each is subtracted from the total of the metric and
    from [cacheSizeUsed]; each is deleted from the chunk map; and the
    metric is deleted exactly when its total has become zero. *)
Theorem evict_batch a target l met :
  LRU.pop (lru a) = (Some target, l) →
  metrics a !! Metric target = Some met →
  U64.in_range (total met) →
  let victims := evict_targets met target in
  let sizes := sizes_of (chunks met) victims in
  let total' := sub_all (total met) sizes in
  let chunks' := filter (λ kv, ¬ (kv.1 ≤ Ts target)%N) (chunks met) in
  (∀ ts, ts ∈ victims ↔ is_Some (chunks met !! ts) ∧ (ts ≤ Ts target)%N)
  ∧ StronglySorted N.lt victims
  ∧ Forall2 (λ ts sz, chunks met !! ts = Some sz) victims sizes
  ∧ evictQ (evict a) = evictQ a ++ (mkEvictTarget (Metric target) <$> victims)
  ∧ used (evict a) = sub_all (used a) sizes
  ∧ (total' = 0 → metrics (evict a) = delete (Metric target) (metrics a))
  ∧ (total' ≠ 0 →
     metrics (evict a)
     = <[Metric target := mkFlatAccntMet total' chunks']> (metrics a)).
Proof.
  intros Hpop Hm Hr victims sizes total' chunks'.
  assert (lru a = target :: l) as Hl.
  { destruct (lru a); simpl in Hpop; congruence. }
  rewrite (evict_found _ _ _ _ Hl Hm). unfold evicted. cbn zeta. cbn.
  fold victims sizes total'.
  split_and!.
  - intros ts. apply elem_of_evict_targets.
  - apply evict_targets_ascending.
  - apply sizes_of_present. intros ts Hts.
    by apply elem_of_evict_targets in Hts as [? _].
  - done.
  - done.
  - intros ->. done.
  - intros Hnz.
    pose proof (sub_all_range sizes _ Hr) as [Hlo _]. fold total' in Hlo.
    destruct (total' <=? 0) eqn:Hle; [lia|].
    unfold chunks'. by rewrite <-del_all_evict_targets.
Qed.

Lemma evict_batch_witness :
  LRU.pop (lru three_chunks) = (Some (mkEvictTarget s_a 2), [mkEvictTarget s_a 1; mkEvictTarget s_a 7])
  ∧ metrics three_chunks !! s_a = Some three_chunks_met
  ∧ evictQ (evict three_chunks) = [mkEvictTarget s_a 1; mkEvictTarget s_a 2]
  ∧ used (evict three_chunks) = 5.
Proof.
  assert (LRU.pop (lru three_chunks)
          = (Some (mkEvictTarget s_a 2), [mkEvictTarget s_a 1; mkEvictTarget s_a 7])) as Hpop
    by (vm_compute; reflexivity).
  assert (metrics three_chunks !! Metric (mkEvictTarget s_a 2) = Some three_chunks_met) as Hm
    by (vm_compute; reflexivity).
  assert (U64.in_range (total three_chunks_met)) as Hr
    by (vm_compute; split; congruence).
  destruct (evict_batch three_chunks _ _ _ Hpop Hm Hr) as (_ & _ & _ & Hq & Hu & _).
  split_and!; [exact Hpop|exact Hm| |].
  - rewrite Hq. vm_compute. reflexivity.
  - rewrite Hu. vm_compute. reflexivity.
Defined.

(** ** The budget after the drain loop *)

(** C2: for every finite sequence of events processed from the initial
    state with any limit, the loop comes to rest, and in the state it
    rests in [cacheSizeUsed <= maxSize] or the recency index is empty
    (or, the other wording, the ledger is empty). *)
Theorem budget_after_drain max events :
  U64.in_range max →
  ∃ a, eventLoop (NewFlatAccnt max) events = Some a
       ∧ (used a <= max ∨ lru a = [])
       ∧ (used a <= max ∨ metrics a = ∅).
Proof.
  intros [Hmax _].
  destruct (eventLoop_terminates events (NewFlatAccnt max)) as [a Ha];
    [apply inv_New|done|].
  exists a. split; [done|].
  destruct (eventLoop_reachable max events _ _ (reach_new max) Hmax Ha) as [Hr Hq].
  rewrite (reachable_maxSize _ _ Hr) in Hq. by split; left.
Qed.

Lemma budget_after_drain_witness :
  U64.in_range 30
  ∧ ∃ a, eventLoop (NewFlatAccnt 30)
           [evnt_add_chnk s_a 1 10; evnt_add_chnk s_a 2 10;
            evnt_add_chnk s_a 3 10; evnt_add_chnk s_a 4 10] = Some a
         ∧ (used a <= 30 ∨ lru a = [])
         ∧ (used a <= 30 ∨ metrics a = ∅).
Proof.
  assert (U64.in_range 30) as Hr by (vm_compute; split; congruence).
  split; [exact Hr|]. exact (budget_after_drain 30 _ Hr).
Defined.

(** ** Termination of the drain loop *)

(** C9: in every reachable state the drain loop ends, after at most as
    many calls of [evict] as there are ids in the recency index.  [evict]
    returns early on an empty pop and on a target whose metric is gone,
    and every round of the loop pops one id. *)
Theorem drain_loop_terminates max a :
  U64.in_range max → reachable max a →
  (∃ a', drain a = Some a' ∧ used a' <= maxSize a')
  ∧ (lru a = [] → evict a = a)
  ∧ (∀ target l, lru a = target :: l → metrics a !! Metric target = None →
                 evict a = set_lru l a)
  ∧ (used a > maxSize a → (length (lru (evict a)) < length (lru a))%nat).
Proof.
  intros [Hmax _] Hr. pose proof (reachable_inv _ _ Hr) as Hinv.
  pose proof (reachable_maxSize _ _ Hr) as Hm. split_and!.
  - destruct (drain_terminates a) as [a' Ha']; [done|lia|].
    exists a'. split; [done|].
    by apply (drain_fuel_reachable max) in Ha' as [_ ?].
  - apply evict_empty.
  - apply evict_missing.
  - intros Hgt. rewrite evict_lru. destruct (lru a) eqn:Hl; simpl; [|lia].
    rewrite (inv_empty_used a Hinv Hl) in Hgt. lia.
Qed.

Lemma over_limit_reachable : reachable 30 over_limit.
Proof.
  unfold over_limit.
  repeat (apply reach_event; [|vm_compute; congruence]).
  apply reach_new.
Qed.

Lemma drain_loop_terminates_witness :
  U64.in_range 30 ∧ reachable 30 over_limit
  ∧ (∃ a', drain over_limit = Some a' ∧ used a' <= maxSize a').
Proof.
  assert (U64.in_range 30) as Hr by (vm_compute; split; congruence).
  split_and!; [exact Hr|exact over_limit_reachable|].
  exact (proj1 (drain_loop_terminates 30 over_limit Hr over_limit_reachable)).
Defined.

(** ** Recency index and ledger *)

(** C10: in every reachable state every chunk of the byte ledger is in the
    recency index; an id can be in the recency index alone, never in the
    ledger alone. *)
Theorem recency_covers_ledger max a :
  reachable max a → ∀ t, in_ledger a t → t ∈ lru a.
Proof. intros Hr. by destruct (reachable_inv _ _ Hr). Qed.

Lemma recency_covers_ledger_witness :
  reachable 30 over_limit ∧ in_ledger over_limit (mkEvictTarget s_a 3)
  ∧ mkEvictTarget s_a 3 ∈ lru over_limit.
Proof.
  assert (in_ledger over_limit (mkEvictTarget s_a 3)) as Hin
    by (vm_compute; eauto).
  split_and!; [exact over_limit_reachable|exact Hin|].
  exact (recency_covers_ledger 30 over_limit over_limit_reachable _ Hin).
Defined.

(** C4, as stated, fails: after a hit on an unknown chunk the id is in the
    recency index and has no chunk entry in the ledger. *)
Lemma recency_without_ledger :
  eventLoop (NewFlatAccnt 100) [evnt_hit_chnk s_a 1] = Some hit_unknown
  ∧ mkEvictTarget s_a 1 ∈ lru hit_unknown
  ∧ ¬ in_ledger hit_unknown (mkEvictTarget s_a 1).
Proof.
  split_and!.
  - vm_compute. reflexivity.
  - vm_compute. apply list_elem_of_here.
  - vm_compute. by intros [].
Qed.

(** C4, amended: between any two processed events every chunk entry of the
    ledger has its id in the recency index. *)
Theorem ledger_in_recency_between_events max events :
  U64.in_range max →
  ∃ a, eventLoop (NewFlatAccnt max) events = Some a
       ∧ ∀ metric ts, in_ledger a (mkEvictTarget metric ts) →
                      mkEvictTarget metric ts ∈ lru a.
Proof.
  intros [Hmax _].
  destruct (eventLoop_terminates events (NewFlatAccnt max)) as [a Ha];
    [apply inv_New|done|].
  exists a. split; [done|]. intros metric ts.
  destruct (eventLoop_inv events _ _ (inv_New max) Ha) as [_ Hc _]. apply Hc.
Qed.

Lemma ledger_in_recency_between_events_witness :
  U64.in_range 100
  ∧ ∃ a, eventLoop (NewFlatAccnt 100)
           [evnt_add_chnk s_a 2 5; evnt_hit_chnk s_b 1; evnt_add_chnk s_a 7 5]
         = Some a
         ∧ ∀ metric ts, in_ledger a (mkEvictTarget metric ts) →
                        mkEvictTarget metric ts ∈ lru a.
Proof.
  assert (U64.in_range 100) as Hr by (vm_compute; split; congruence).
  split; [exact Hr|]. exact (ledger_in_recency_between_events 100 _ Hr).
Defined.

(** ** What [evict] removes from the recency index *)

(** C5, as stated, fails: [evict] pops ("a", 2), evicts ("a", 1) and
    ("a", 2), and leaves ("a", 1) in the recency index. *)
Lemma victim_stays_in_recency :
  LRU.pop (lru three_chunks)
  = (Some (mkEvictTarget s_a 2), [mkEvictTarget s_a 1; mkEvictTarget s_a 7])
  ∧ evictQ three_chunks = []
  ∧ evictQ (evict three_chunks) = [mkEvictTarget s_a 1; mkEvictTarget s_a 2]
  ∧ ¬ in_ledger (evict three_chunks) (mkEvictTarget s_a 1)
  ∧ mkEvictTarget s_a 1 ∈ lru (evict three_chunks).
Proof.
  split_and!.
  - vm_compute. reflexivity.
  - vm_compute. reflexivity.
  - vm_compute. reflexivity.
  - vm_compute. by intros [].
  - vm_compute. apply list_elem_of_here.
Qed.

(** C5, amended: [evict] takes the popped target out of the recency index
    and nothing else; every other id, an evicted older sibling too, is in
    the index afterwards iff it was before. *)
Theorem evict_pops_only_target a target l :
  LRU.pop (lru a) = (Some target, l) → NoDup (lru a) →
  lru (evict a) = l
  ∧ (target ∉ lru (evict a))
  ∧ ∀ t, t ≠ target → (t ∈ lru (evict a) ↔ t ∈ lru a).
Proof.
  intros Hpop Hnd.
  assert (lru a = target :: l) as Hl.
  { destruct (lru a); simpl in Hpop; congruence. }
  rewrite evict_lru, Hl in *. simpl.
  apply NoDup_cons in Hnd as [Hnotin _]. split_and!; [done..|].
  intros t Hne. rewrite elem_of_cons. tauto.
Qed.

Lemma evict_pops_only_target_witness :
  LRU.pop (lru three_chunks)
  = (Some (mkEvictTarget s_a 2), [mkEvictTarget s_a 1; mkEvictTarget s_a 7])
  ∧ NoDup (lru three_chunks)
  ∧ lru (evict three_chunks) = [mkEvictTarget s_a 1; mkEvictTarget s_a 7].
Proof.
  assert (LRU.pop (lru three_chunks)
          = (Some (mkEvictTarget s_a 2), [mkEvictTarget s_a 1; mkEvictTarget s_a 7])) as Hpop
    by (vm_compute; reflexivity).
  assert (NoDup (lru three_chunks)) as Hnd
    by (apply (bool_decide_unpack _); vm_compute; exact I).
  split_and!; [exact Hpop|exact Hnd|].
  exact (proj1 (evict_pops_only_target three_chunks _ _ Hpop Hnd)).
Defined.

(** ** A limit of zero *)

(** C3, as stated, fails: with a limit of zero the first chunk that is
    added is put on the evict queue and taken out of the ledger. *)
Lemma zero_max_evicts :
  ∃ a, eventLoop (NewFlatAccnt 0) [evnt_add_chnk s_a 1 10] = Some a
       ∧ evictQ a = [mkEvictTarget s_a 1]
       ∧ metrics a = ∅.
Proof. eexists. split_and!; vm_compute; reflexivity. Qed.

Lemma evict_progress a :
  (used (evict a) = used a ∧ evictQ (evict a) = evictQ a)
  ∨ (length (evictQ a) < length (evictQ (evict a)))%nat.
Proof.
  destruct (lru a) as [|target l] eqn:Hl; [left; by rewrite evict_empty|].
  destruct (metrics a !! Metric target) as [met|] eqn:Hm.
  - rewrite (evict_found _ _ _ _ Hl Hm). unfold evicted. cbn zeta. cbn.
    destruct (evict_targets met target) as [|ts tss].
    + left. simpl. by rewrite app_nil_r.
    + right. rewrite length_app, length_fmap. simpl. lia.
  - rewrite (evict_missing _ _ _ Hl Hm). by left.
Qed.

(** a drain loop that changes [cacheSizeUsed] sends on the evict queue *)
Lemma drain_fuel_progress n a a' :
  drain_fuel n a = Some a' →
  (used a' = used a ∧ evictQ a' = evictQ a)
  ∨ (length (evictQ a) < length (evictQ a'))%nat.
Proof.
  intros Hd.
  apply (drain_fuel_Some
           (λ x, (used x = used a ∧ evictQ x = evictQ a)
                 ∨ (length (evictQ a) < length (evictQ x))%nat)) in Hd as [? _];
    [done| |by left].
  intros x Hx _. destruct (evict_progress x) as [[-> ->]|Hlt]; [done|].
  right. destruct Hx as [[_ Hq]|?]; [rewrite <-Hq|]; lia.
Qed.

(** C3, amended: with a limit of zero the budget is zero, not disabled.
    The loop rests with [cacheSizeUsed = 0] after every event, and an add
    of a chunk of nonzero size that the ledger does not have is followed
    by at least one eviction before the next event. *)
Theorem zero_max_is_zero_budget events :
  ∃ a, eventLoop (NewFlatAccnt 0) events = Some a
       ∧ used a = 0
       ∧ ∀ metric ts sz,
           ¬ in_ledger a (mkEvictTarget metric ts) → 0 < sz < U64.modulus →
           ∃ a', eventLoop a [evnt_add_chnk metric ts sz] = Some a'
                 ∧ used a' = 0
                 ∧ (length (evictQ a) < length (evictQ a'))%nat.
Proof.
  destruct (eventLoop_terminates events (NewFlatAccnt 0)) as [a Ha];
    [apply inv_New|done|].
  pose proof (eventLoop_inv _ _ _ (inv_New 0) Ha) as Hinv.
  pose proof (eventLoop_maxSize _ _ _ Ha) as Hmax. simpl in Hmax.
  assert (∀ x, inv x → used x <= maxSize x → maxSize x = 0 → used x = 0) as Hzero.
  { intros x Hx Hq Hmx. pose proof (inv_used_range x Hx) as [Hlo _]. lia. }
  destruct (eventLoop_reachable 0 events _ _ (reach_new 0) (Z.le_refl 0) Ha)
    as [Hr Hq].
  pose proof (Hzero a Hinv Hq Hmax) as Hu.
  exists a. split_and!; [done..|].
  intros metric ts sz Hnew Hsz.
  set (ev := evnt_add_chnk metric ts sz).
  destruct (eventLoop_terminates [ev] a) as [a' Ha']; [done|lia|].
  exists a'. split; [done|].
  destruct (eventLoop_reachable 0 [ev] _ _ Hr Hq Ha') as [Hr' Hq'].
  pose proof (Hzero a' (reachable_inv _ _ Hr') Hq' (reachable_maxSize _ _ Hr')) as Hu'.
  split; [done|].
  rewrite eventLoop_cons in Ha' by done.
  destruct (drain (apply_event ev a)) as [a1|] eqn:Hd; [|done].
  cbn in Ha'. injection Ha' as ->.
  assert (used (apply_event ev a) = sz ∧ evictQ (apply_event ev a) = evictQ a)
    as [Hused Hq0].
  { rewrite in_ledger_lookup in Hnew. cbn in Hnew. cbn [ev apply_event].
    destruct (metrics a !! metric) as [met|] eqn:Hm.
    - destruct (chunks met !! ts) as [old|] eqn:Hts.
      { exfalso. apply Hnew. exists met. by split. }
      rewrite (add_new_chunk _ _ _ _ met) by done. cbn.
      unfold used in *. cbn. rewrite Hu. split; [|done].
      apply wrap_id. unfold U64.in_range. lia.
    - rewrite add_new_metric by done. cbn.
      unfold used in *. cbn. rewrite Hu. split; [|done].
      apply wrap_id. unfold U64.in_range. lia. }
  destruct (drain_fuel_progress _ _ _ Hd) as [[Hsame _]|Hlt].
  - rewrite Hused in Hsame. lia.
  - by rewrite Hq0 in Hlt.
Qed.

Lemma zero_max_is_zero_budget_witness :
  ∃ a, eventLoop (NewFlatAccnt 0) [evnt_add_chnk s_a 1 0] = Some a
       ∧ used a = 0
       ∧ ∃ a', eventLoop a [evnt_add_chnk s_b 1 10] = Some a'
               ∧ used a' = 0
               ∧ (length (evictQ a) < length (evictQ a'))%nat.
Proof.
  destruct (zero_max_is_zero_budget [evnt_add_chnk s_a 1 0]) as (a & Ha & Hu & Hadd).
  exists a. split_and!; [exact Ha|exact Hu|].
  apply Hadd.
  - vm_compute in Ha. injection Ha as <-. vm_compute. by intros [].
  - vm_compute. split; reflexivity.
Defined.

(** ** The counter of added chunks *)

(** C6, as stated, fails: a second add of a chunk that is in the ledger
    increments [cacheChunkAdd] again. *)
Lemma repeated_add_is_counted :
  ∃ a1 a2,
    eventLoop (NewFlatAccnt 100) [evnt_add_chnk s_a 1 10] = Some a1
    ∧ in_ledger a1 (mkEvictTarget s_a 1)
    ∧ cacheChunkAdd (stats a1) = 1%N
    ∧ eventLoop a1 [evnt_add_chnk s_a 1 10] = Some a2
    ∧ metrics a2 = metrics a1
    ∧ cacheChunkAdd (stats a2) = 2%N.
Proof.
  do 2 eexists. split_and!.
  - vm_compute. reflexivity.
  - vm_compute. eauto.
  - vm_compute. reflexivity.
  - vm_compute. reflexivity.
  - vm_compute. reflexivity.
  - vm_compute. reflexivity.
Qed.

Lemma add_cacheChunkAdd metric ts sz a :
  cacheChunkAdd (stats (add metric ts sz a)) = cacheChunkAdd (stats a).
Proof.
  unfold add. destruct (metrics a !! metric) as [met|]; cbn; by destruct (_ !! ts).
Qed.

Lemma evict_cacheChunkAdd a :
  cacheChunkAdd (stats (evict a)) = cacheChunkAdd (stats a).
Proof.
  destruct (lru a) as [|target l] eqn:Hl; [by rewrite evict_empty|].
  destruct (metrics a !! Metric target) as [met|] eqn:Hm.
  - by rewrite (evict_found _ _ _ _ Hl Hm).
  - by rewrite (evict_missing _ _ _ Hl Hm).
Qed.

Lemma drain_fuel_cacheChunkAdd n a a' :
  drain_fuel n a = Some a' → cacheChunkAdd (stats a') = cacheChunkAdd (stats a).
Proof.
  intros Hd.
  apply (drain_fuel_Some (λ x, cacheChunkAdd (stats x) = cacheChunkAdd (stats a)))
    in Hd as [? _]; [done| |done].
  intros x Hx _. by rewrite evict_cacheChunkAdd.
Qed.

Lemma apply_event_cacheChunkAdd ev a :
  cacheChunkAdd (stats (apply_event ev a))
  = match ev with
    | evnt_add_chnk _ _ _ => N.succ (cacheChunkAdd (stats a))
    | _ => cacheChunkAdd (stats a)
    end.
Proof.
  destruct ev as [metric ts|metric ts sz|metric| | |]; cbn; try done.
  - by rewrite add_cacheChunkAdd.
  - unfold delMet. by destruct (metrics a !! metric).
Qed.

Lemma eventLoop_cacheChunkAdd events : ∀ a a',
  eventLoop a events = Some a' →
  cacheChunkAdd (stats a') = (cacheChunkAdd (stats a) + adds_processed events)%N.
Proof.
  induction events as [|ev events IH]; intros a a'.
  { intros [= <-]. simpl. lia. }
  destruct (decide (ev = evnt_stop)) as [->|Hev].
  { intros [= <-]. simpl. lia. }
  rewrite eventLoop_cons by done.
  destruct (drain (apply_event ev a)) as [a1|] eqn:Hd; [|done]. cbn.
  intros Ha'. rewrite (IH _ _ Ha'), (drain_fuel_cacheChunkAdd _ _ _ Hd).
  rewrite apply_event_cacheChunkAdd. destruct ev; simpl; try lia. done.
Qed.

(** C6, amended: [cacheChunkAdd] is incremented exactly once for every add
    event the loop processes, for a chunk the ledger already has as well
    as for a new one, and by nothing else. *)
Theorem chunk_add_counts_add_events max events :
  U64.in_range max →
  ∃ a, eventLoop (NewFlatAccnt max) events = Some a
       ∧ cacheChunkAdd (stats a) = adds_processed events.
Proof.
  intros [Hmax _].
  destruct (eventLoop_terminates events (NewFlatAccnt max)) as [a Ha];
    [apply inv_New|done|].
  exists a. split; [done|]. by rewrite (eventLoop_cacheChunkAdd _ _ _ Ha).
Qed.

Lemma chunk_add_counts_add_events_witness :
  U64.in_range 100
  ∧ ∃ a, eventLoop (NewFlatAccnt 100)
           [evnt_add_chnk s_a 1 10; evnt_hit_chnk s_a 1; evnt_add_chnk s_a 1 10]
         = Some a
         ∧ cacheChunkAdd (stats a) = 2%N.
Proof.
  assert (U64.in_range 100) as Hr by (vm_compute; split; congruence).
  split; [exact Hr|]. exact (chunk_add_counts_add_events 100 _ Hr).
Defined.

(** ** Adding a chunk twice *)

Lemma add_in_ledger_id metric ts sz a :
  in_ledger a (mkEvictTarget metric ts) → add metric ts sz a = a.
Proof.
  rewrite in_ledger_lookup. cbn. intros (met & Hm & Hts).
  by eapply add_known_chunk.
Qed.

(** Adding a chunk is idempotent as far as the switch of the event loop
    goes.  A second [add] of the same chunk changes nothing at all.  An
    add event applied twice, without the drain loop in between, leaves
    every field of the accountant (ledger with its totals, recency index,
    evict queue) and [cacheSizeUsed] as after applying it once; all that
    differs is the process-wide event counter [cacheChunkAdd]. *)
Lemma add_chunk_idempotent metric ts sz a :
  let ev := evnt_add_chnk metric ts sz in
  add metric ts sz (add metric ts sz a) = add metric ts sz a
  ∧ apply_event ev (apply_event ev a) = Inc_cacheChunkAdd (apply_event ev a)
  ∧ metrics (apply_event ev (apply_event ev a)) = metrics (apply_event ev a)
  ∧ used (apply_event ev (apply_event ev a)) = used (apply_event ev a)
  ∧ lru (apply_event ev (apply_event ev a)) = lru (apply_event ev a)
  ∧ evictQ (apply_event ev (apply_event ev a)) = evictQ (apply_event ev a).
Proof.
  intros ev.
  assert (in_ledger (add metric ts sz a) (mkEvictTarget metric ts)) as Hin.
  { apply add_in_ledger. by right. }
  assert (apply_event ev (apply_event ev a) = Inc_cacheChunkAdd (apply_event ev a))
    as Heq.
  { cbn [ev apply_event].
    set (a1 := set_lru _ (Inc_cacheChunkAdd (add metric ts sz a))).
    assert (add metric ts sz a1 = a1) as ->.
    { apply add_in_ledger_id. by apply (in_ledger_ext (add metric ts sz a)). }
    unfold a1. cbn. by rewrite touch_touch. }
  split_and!; [by apply add_in_ledger_id|done|by rewrite Heq..].
Qed.

(** ** Adding a chunk and deleting its metric *)

Lemma drain_quiet a : used a <= maxSize a → drain a = Some a.
Proof.
  intros Hq. unfold drain. simpl.
  destruct (used a >? maxSize a) eqn:Hgt; [lia|done].
Qed.

(** C8: from a state at rest in which the metric is not in the ledger,
    an add event that triggers no eviction followed by the deletion of the
    metric brings [cacheSizeUsed] back to what it was, leaves no id of the
    chunk in the recency index and sends nothing on the evict queue. *)
Theorem add_del_roundtrip a metric ts sz :
  metrics a !! metric = None →
  U64.in_range (used a) →
  used a <= maxSize a →
  U64.add (used a) sz <= maxSize a →
  ∃ a', eventLoop a [evnt_add_chnk metric ts sz; evnt_del_met metric] = Some a'
        ∧ used a' = used a
        ∧ (mkEvictTarget metric ts ∉ lru a')
        ∧ evictQ a' = evictQ a
        ∧ metrics a' = metrics a.
Proof.
  intros Hm Hr Hq Hadd.
  set (met := mkFlatAccntMet (U64.add 0 sz) {[ts := sz]}).
  remember (apply_event (evnt_add_chnk metric ts sz) a) as a1 eqn:Ea1.
  assert (metrics a1 = <[metric := met]> (metrics a)
          ∧ used a1 = U64.add (used a) sz
          ∧ lru a1 = LRU.touch (mkEvictTarget metric ts) (lru a)
          ∧ evictQ a1 = evictQ a ∧ maxSize a1 = maxSize a)
    as (Hm1 & Hu1 & Hl1 & Hq1 & Hmax1).
  { subst a1. cbn [apply_event]. by rewrite add_new_metric. }
  remember (apply_event (evnt_del_met metric) a1) as a2 eqn:Ea2.
  assert (metrics a2 = metrics a
          ∧ used a2 = used a
          ∧ lru a2 = LRU.del (mkEvictTarget metric ts) (lru a)
          ∧ evictQ a2 = evictQ a ∧ maxSize a2 = maxSize a)
    as (Hm2 & Hu2 & Hl2 & Hq2 & Hmax2).
  { subst a2. cbn [apply_event].
    rewrite (delMet_present _ _ met) by (by rewrite Hm1, lookup_insert_eq).
    cbn. unfold chunk_keys. cbn. rewrite map_to_list_singleton. cbn.
    rewrite Hm1, Hl1, Hq1, Hmax1, del_touch, delete_insert_eq.
    rewrite delete_id by done. split_and!; try done.
    unfold used in *. cbn. rewrite Hu1. by apply sub_add_cancel. }
  exists a2. split_and!; [|done| |done..].
  - rewrite eventLoop_cons by done. rewrite <-Ea1.
    rewrite drain_quiet by (rewrite Hu1, Hmax1; done).
    change (eventLoop a1 [evnt_del_met metric] = Some a2).
    rewrite eventLoop_cons by done. rewrite <-Ea2.
    rewrite drain_quiet by (rewrite Hu2, Hmax2; done). done.
  - rewrite Hl2, elem_of_del. tauto.
Qed.

Lemma add_del_roundtrip_witness :
  metrics three_chunks !! s_b = None
  ∧ U64.in_range (used three_chunks)
  ∧ used three_chunks <= maxSize three_chunks
  ∧ U64.add (used three_chunks) 10 <= maxSize three_chunks
  ∧ ∃ a', eventLoop three_chunks [evnt_add_chnk s_b 3 10; evnt_del_met s_b] = Some a'
          ∧ used a' = used three_chunks
          ∧ (mkEvictTarget s_b 3 ∉ lru a')
          ∧ evictQ a' = evictQ three_chunks
          ∧ metrics a' = metrics three_chunks.
Proof.
  assert (metrics three_chunks !! s_b = None) as Hm by (vm_compute; reflexivity).
  assert (U64.in_range (used three_chunks)) as Hr by (vm_compute; split; congruence).
  assert (used three_chunks <= maxSize three_chunks) as Hq by (vm_compute; congruence).
  assert (U64.add (used three_chunks) 10 <= maxSize three_chunks) as Hadd
    by (vm_compute; congruence).
  split_and!; [exact Hm|exact Hr|exact Hq|exact Hadd|].
  exact (add_del_roundtrip three_chunks s_b 3%N 10 Hm Hr Hq Hadd).
Defined.

Lemma touch_last id (l : list EvictTarget) :
  NoDup (l ++ [id]) → LRU.touch id (l ++ [id]) = l ++ [id].
Proof.
  intros Hnd. apply NoDup_app in Hnd as (_ & Hnotin & _).
  rewrite touch_del, del_app. rewrite del_absent.
  - unfold LRU.del. rewrite filter_cons_False by tauto. by rewrite filter_nil, app_nil_r.
  - intros Hin. apply (Hnotin _ Hin), list_elem_of_here.
Qed.

Lemma drain_fuel_lru_suffix n a a' :
  drain_fuel n a = Some a' → ∃ k, lru a' = drop k (lru a).
Proof.
  intros Hd.
  apply (drain_fuel_Some (λ x, ∃ k, lru x = drop k (lru a))) in Hd as [? _];
    [done| |by exists 0%nat].
  intros x [k Hk] _. exists (S k). rewrite evict_lru, Hk.
  clear. revert k. induction (lru a) as [|y l IH]; intros [|k]; simpl; done.
Qed.

(** The drain loop is not part of applying an event.  At the level of the
    whole loop a repeated add event is again without effect, up to the
    event counter, whenever the chunk is in the ledger once the first
    event has been dealt with. *)
Lemma add_event_twice_processed metric ts sz a a1 :
  let ev := evnt_add_chnk metric ts sz in
  inv a → eventLoop a [ev] = Some a1 →
  in_ledger a1 (mkEvictTarget metric ts) →
  eventLoop a [ev; ev] = Some (Inc_cacheChunkAdd a1).
Proof.
  intros ev Hinv Ha1 Hin.
  pose proof (eventLoop_inv _ _ _ Hinv Ha1) as Hinv1.
  rewrite eventLoop_cons in Ha1 |- * by done.
  destruct (drain (apply_event ev a)) as [x|] eqn:Hd; [|done].
  cbn in Ha1. injection Ha1 as ->. cbn [mbind option_bind].
  rewrite eventLoop_cons by done.
  assert (apply_event ev a1 = Inc_cacheChunkAdd a1) as ->.
  { cbn [ev apply_event]. rewrite add_in_ledger_id by done.
    assert (LRU.touch (mkEvictTarget metric ts) (lru a1) = lru a1) as Ht.
    { destruct (drain_fuel_lru_suffix _ _ _ Hd) as [k Hk].
      cbn [ev apply_event lru set_lru] in Hk. rewrite touch_del in Hk.
      remember (LRU.del (mkEvictTarget metric ts)
                  (lru (Inc_cacheChunkAdd (add metric ts sz a)))) as l0.
      pose proof (inv_NoDup _ Hinv1) as Hnd.
      pose proof (inv_covers _ Hinv1 _ Hin) as Hin1.
      destruct (decide (k ≤ length l0)%nat) as [Hle|Hgt].
      - rewrite drop_app_le in Hk by done. rewrite Hk in Hnd |- *.
        by apply touch_last.
      - rewrite drop_ge in Hk by (rewrite length_app; simpl; lia).
        rewrite Hk in Hin1. by apply not_elem_of_nil in Hin1. }
    cbn. rewrite Ht. by destruct a1. }
  rewrite drain_quiet; [done|].
  apply (drain_fuel_Some (λ _, True)) in Hd as [_ Hq]; done.
Qed.

(** C7, as stated, fails once the drain loop that follows every event is
    taken in: at a limit of 10, after a chunk ("a", 5) of 4 bytes, the
    first add of ("a", 1) with 8 bytes goes over the limit, the loop pops
    ("a", 5) and evicts ("a", 1) with it as its older sibling, and
    [cacheSizeUsed] is 0; the second add event finds the chunk gone, adds
    it again, and [cacheSizeUsed] is 8. *)
Lemma add_event_after_eviction :
  let a := default (NewFlatAccnt 10)
             (eventLoop (NewFlatAccnt 10) [evnt_add_chnk s_a 5 4]) in
  let ev := evnt_add_chnk s_a 1 8 in
  (λ r, (used <$> r, evictQ <$> r)) (eventLoop a [ev])
  = (Some 0, Some [mkEvictTarget s_a 1; mkEvictTarget s_a 5])
  ∧ (λ r, (used <$> r, evictQ <$> r)) (eventLoop a [ev; ev])
    = (Some 8, Some [mkEvictTarget s_a 1; mkEvictTarget s_a 5]).
Proof. split; vm_compute; reflexivity. Qed.

(** C7, amended: from every reachable state, when the chunk is in the
    ledger once the first add event has been processed (the drain loop
    after it did not evict it), processing the add event twice in
    succession gives the state that processing it once gives, apart from
    the event counter [cacheChunkAdd]: the second one changes neither the
    ledger with its entries and totals, nor [cacheSizeUsed], nor the
    recency index, and sends nothing on the evict queue.  The ledger
    operation [add] by itself is idempotent in every state. *)
Theorem add_chunk_twice_processed max a metric ts sz a1 :
  let ev := evnt_add_chnk metric ts sz in
  reachable max a →
  eventLoop a [ev] = Some a1 →
  in_ledger a1 (mkEvictTarget metric ts) →
  (∃ a2, eventLoop a [ev; ev] = Some a2
         ∧ a2 = Inc_cacheChunkAdd a1
         ∧ metrics a2 = metrics a1
         ∧ used a2 = used a1
         ∧ lru a2 = lru a1
         ∧ evictQ a2 = evictQ a1)
  ∧ add metric ts sz (add metric ts sz a) = add metric ts sz a.
Proof.
  intros ev Hr Ha1 Hin. split.
  - exists (Inc_cacheChunkAdd a1). split_and!; try done.
    by apply add_event_twice_processed; [eapply reachable_inv|..].
  - apply add_chunk_idempotent.
Qed.

Lemma add_chunk_twice_processed_witness :
  let ev := evnt_add_chnk s_b 1 5 in
  let a1 := default over_limit (eventLoop over_limit [ev]) in
  reachable 30 over_limit
  ∧ eventLoop over_limit [ev] = Some a1
  ∧ in_ledger a1 (mkEvictTarget s_b 1)
  ∧ evictQ a1 = [mkEvictTarget s_a 1; mkEvictTarget s_a 2]
  ∧ ∃ a2, eventLoop over_limit [ev; ev] = Some a2
          ∧ a2 = Inc_cacheChunkAdd a1
          ∧ metrics a2 = metrics a1
          ∧ used a2 = used a1
          ∧ lru a2 = lru a1
          ∧ evictQ a2 = evictQ a1.
Proof.
  intros ev a1.
  assert (eventLoop over_limit [ev] = Some a1) as Hrun by (vm_compute; reflexivity).
  assert (in_ledger a1 (mkEvictTarget s_b 1)) as Hin by (vm_compute; eauto).
  split_and!; [exact over_limit_reachable|exact Hrun|exact Hin| |].
  - vm_compute. reflexivity.
  - exact (proj1 (add_chunk_twice_processed 30 over_limit s_b 1%N 5 a1
                    over_limit_reachable Hrun Hin)).
Defined.


(** * Further properties of the accountant *)

Lemma two_metrics_reachable : reachable 20 two_metrics.
Proof.
  unfold two_metrics.
  repeat (apply reach_event; [|vm_compute; congruence]).
  apply reach_new.
Qed.

Lemma eventLoop_preserves (P : FlatAccnt → Prop) :
  (∀ ev a, P a → P (apply_event ev a)) →
  (∀ a, P a → P (evict a)) →
  ∀ events a a', P a → eventLoop a events = Some a' → P a'.
Proof.
  intros Hev Hevict. induction events as [|ev events IH]; intros a a' HP.
  { by intros [= <-]. }
  destruct (decide (ev = evnt_stop)) as [->|Hne]; [by intros [= <-]|].
  rewrite eventLoop_cons by done.
  destruct (drain (apply_event ev a)) as [a1|] eqn:Hd; [|done]. cbn.
  apply IH.
  apply (drain_fuel_Some P (λ x Hx _, Hevict x Hx) _ _ _ (Hev ev a HP)) in Hd.
  by destruct Hd.
Qed.

(** ** Byte accounting *)

Lemma wrap_msum `{Countable K} {A} (g h : A → Z) (m : gmap K A) :
  (∀ k v, m !! k = Some v → g v = U64.wrap (h v)) →
  U64.wrap (msum g m) = U64.wrap (msum h m).
Proof.
  induction m as [|k v m Hk IH] using map_ind; intros Hgh.
  - by rewrite !msum_empty.
  - rewrite !msum_insert_None by done.
    rewrite (Hgh k v) by apply lookup_insert_eq.
    rewrite wrap_add_l, <-wrap_add_r, IH, wrap_add_r; [done|].
    intros k' v' Hk'. apply (Hgh k').
    rewrite lookup_insert_ne; [done|]. intros ->. congruence.
Qed.

Lemma inv_used_ledger_bytes a : inv a → used a = U64.wrap (ledger_bytes a).
Proof.
  intros [[Ht Hu] _ _]. rewrite Hu. unfold sum_totals, ledger_bytes.
  by apply wrap_msum.
Qed.

(** X1: In every reachable state the total of each metric is the sum of the
    sizes of its chunks, and [cacheSizeUsed] is the sum of the sizes of
    all chunks of the ledger, both modulo 2^64; while that sum fits into
    64 bits, [cacheSizeUsed] is the sum itself. *)
Theorem used_is_ledger_bytes max a :
  reachable max a →
  (∀ m met, metrics a !! m = Some met →
            total met = U64.wrap (sum_sizes (chunks met)))
  ∧ used a = U64.wrap (ledger_bytes a)
  ∧ (U64.in_range (ledger_bytes a) → used a = ledger_bytes a).
Proof.
  intros Hr. pose proof (reachable_inv _ _ Hr) as Hinv.
  pose proof (inv_used_ledger_bytes a Hinv) as Hused.
  destruct Hinv as [[Ht Hu] _ _].
  split_and!; [done|done|]. intros Hin. by rewrite Hused, wrap_id.
Qed.

Lemma used_is_ledger_bytes_witness :
  reachable 20 two_metrics ∧ used two_metrics = U64.wrap (ledger_bytes two_metrics).
Proof.
  split; [exact two_metrics_reachable|].
  exact (proj1 (proj2 (used_is_ledger_bytes 20 two_metrics two_metrics_reachable))).
Defined.

(** X2: A get-total event processed at rest sends the sum of the sizes of all
    chunks of the ledger (modulo 2^64) on the reply channel and changes
    nothing else. *)
Theorem getTotal_replies_ledger_bytes max a :
  reachable max a → used a <= maxSize a →
  eventLoop a [evnt_get_total] = Some (send_total (U64.wrap (ledger_bytes a)) a).
Proof.
  intros Hr Hq. pose proof (inv_used_ledger_bytes a (reachable_inv _ _ Hr)) as Hu.
  rewrite eventLoop_cons by done. cbn [apply_event]. unfold getTotal.
  rewrite Hu. by rewrite drain_quiet.
Qed.

Lemma getTotal_replies_ledger_bytes_witness :
  reachable 20 two_metrics ∧ used two_metrics <= maxSize two_metrics
  ∧ totalsSent <$> eventLoop two_metrics [evnt_get_total] = Some [10].
Proof.
  assert (used two_metrics <= maxSize two_metrics) as Hq by (vm_compute; congruence).
  split_and!; [exact two_metrics_reachable|exact Hq|].
  rewrite (getTotal_replies_ledger_bytes 20 two_metrics two_metrics_reachable Hq).
  vm_compute. reflexivity.
Defined.

(** ** Metric entries *)

Lemma apply_event_no_empty_metric ev a :
  no_empty_metric a → no_empty_metric (apply_event ev a).
Proof.
  intros Hne. destruct ev as [metric ts|metric ts sz|metric| | |]; cbn [apply_event];
    try done.
  - intros m met. cbn.
    destruct (metrics a !! metric) as [met0|] eqn:Hm.
    + destruct (chunks met0 !! ts) as [old|] eqn:Hts.
      { erewrite add_known_chunk by done. apply Hne. }
      rewrite (add_new_chunk _ _ _ _ met0) by done. cbn.
      destruct (decide (m = metric)) as [->|Hm'].
      * rewrite lookup_insert_eq. intros [= <-]. cbn. apply insert_non_empty.
      * rewrite lookup_insert_ne by done. apply Hne.
    + rewrite add_new_metric by done. cbn.
      destruct (decide (m = metric)) as [->|Hm'].
      * rewrite lookup_insert_eq. intros [= <-]. cbn.
        rewrite <-insert_empty. apply insert_non_empty.
      * rewrite lookup_insert_ne by done. apply Hne.
  - intros m met. destruct (metrics a !! metric) as [met0|] eqn:Hm.
    + rewrite (delMet_present _ _ met0) by done. cbn.
      rewrite lookup_delete_Some. intros [_ ?]. by eapply Hne.
    + rewrite delMet_absent by done. apply Hne.
Qed.

Lemma evict_no_empty_metric a :
  ledger_ok a → no_empty_metric a → no_empty_metric (evict a).
Proof.
  intros Hok Hne. destruct (lru a) as [|target l] eqn:Hl.
  { by rewrite evict_empty. }
  destruct (metrics a !! Metric target) as [met|] eqn:Hm.
  2:{ by rewrite (evict_missing _ _ _ Hl Hm). }
  pose proof (evicted_ledger_ok a target l met Hok Hm) as [Ht' _].
  rewrite (evict_found _ _ _ _ Hl Hm).
  intros m met0 Hm0. specialize (Ht' m met0 Hm0).
  unfold evicted in Hm0. cbn zeta in Hm0. cbn [metrics total] in Hm0.
  destruct (_ <=? 0) eqn:Hz.
  - apply lookup_delete_Some in Hm0 as [_ ?]. by eapply Hne.
  - destruct (decide (m = Metric target)) as [->|Hm'].
    + rewrite lookup_insert_eq in Hm0. injection Hm0 as <-.
      cbn [total chunks] in *. intros Hempty. rewrite Hempty in Ht'.
      unfold sum_sizes in Ht'. rewrite msum_empty in Ht'.
      change (U64.wrap 0) with 0 in Ht'. lia.
    + rewrite lookup_insert_ne in Hm0 by done. by eapply Hne.
Qed.

(** X3: A metric entry never outlives its chunks: in every reachable state
    every metric of the ledger has at least one chunk. *)
Theorem metric_entries_have_chunks max a m met :
  reachable max a → metrics a !! m = Some met → chunks met ≠ ∅.
Proof.
  intros Hr. revert m met. change (no_empty_metric a).
  induction Hr as [|ev a Hr IH Hq|a Hr IH Hgt].
  - intros m met. cbn. by rewrite lookup_empty.
  - by apply apply_event_no_empty_metric.
  - apply evict_no_empty_metric; [|done].
    by destruct (reachable_inv _ _ Hr).
Qed.

Lemma metric_entries_have_chunks_witness :
  reachable 20 two_metrics
  ∧ metrics two_metrics !! s_a = Some (mkFlatAccntMet 5 {[1%N := 5]})
  ∧ ({[1%N := 5]} : gmap N Z) ≠ ∅.
Proof.
  assert (metrics two_metrics !! s_a = Some (mkFlatAccntMet 5 {[1%N := 5]})) as Hm
    by (vm_compute; reflexivity).
  split_and!; [exact two_metrics_reachable|exact Hm|].
  exact (metric_entries_have_chunks 20 two_metrics s_a _ two_metrics_reachable Hm).
Defined.

(** ** The eviction counters *)

Lemma apply_event_evictQ ev a : evictQ (apply_event ev a) = evictQ a.
Proof.
  destruct ev as [metric ts|metric ts sz|metric| | |]; cbn [apply_event]; try done.
  - unfold add. destruct (metrics a !! metric) as [met|]; cbn; by destruct (_ !! ts).
  - unfold delMet. by destruct (metrics a !! metric).
Qed.

Lemma apply_event_cacheChunkEvict ev a :
  cacheChunkEvict (stats (apply_event ev a)) = cacheChunkEvict (stats a).
Proof.
  destruct ev as [metric ts|metric ts sz|metric| | |]; cbn [apply_event]; try done.
  - unfold add. destruct (metrics a !! metric) as [met|]; cbn; by destruct (_ !! ts).
  - unfold delMet. by destruct (metrics a !! metric).
Qed.

Lemma evict_counts_sends a :
  cacheChunkEvict (stats a) = N.of_nat (length (evictQ a)) →
  cacheChunkEvict (stats (evict a)) = N.of_nat (length (evictQ (evict a))).
Proof.
  intros Hc. destruct (lru a) as [|target l] eqn:Hl; [by rewrite evict_empty|].
  destruct (metrics a !! Metric target) as [met|] eqn:Hm.
  - rewrite (evict_found _ _ _ _ Hl Hm). unfold evicted. cbn.
    rewrite length_app, length_fmap, Hc. lia.
  - by rewrite (evict_missing _ _ _ Hl Hm).
Qed.

(** X4: [cacheChunkEvict] counts the evictions: after any events processed
    from the initial state it is the number of ids sent on the evict
    queue. *)
Theorem chunk_evict_counts_sends max events :
  U64.in_range max →
  ∃ a, eventLoop (NewFlatAccnt max) events = Some a
       ∧ cacheChunkEvict (stats a) = N.of_nat (length (evictQ a)).
Proof.
  intros [Hmax _].
  destruct (eventLoop_terminates events (NewFlatAccnt max)) as [a Ha];
    [apply inv_New|done|].
  exists a. split; [done|].
  apply (eventLoop_preserves
           (λ x, cacheChunkEvict (stats x) = N.of_nat (length (evictQ x))))
    with (3 := eq_refl) in Ha; [done| |apply evict_counts_sends].
  intros ev x Hx. by rewrite apply_event_cacheChunkEvict, apply_event_evictQ.
Qed.

Lemma chunk_evict_counts_sends_witness :
  U64.in_range 30
  ∧ ∃ a, eventLoop (NewFlatAccnt 30)
           [evnt_add_chnk s_a 2 20; evnt_add_chnk s_a 1 20; evnt_add_chnk s_b 1 20]
         = Some a
         ∧ cacheChunkEvict (stats a) = N.of_nat (length (evictQ a)).
Proof.
  assert (U64.in_range 30) as Hr by (vm_compute; split; congruence).
  split; [exact Hr|]. exact (chunk_evict_counts_sends 30 _ Hr).
Defined.

Lemma apply_event_metric_counters ev a c :
  cacheMetricAdd (stats a)
  = (N.of_nat (size (metrics a)) + cacheMetricEvict (stats a) + c)%N →
  cacheMetricAdd (stats (apply_event ev a))
  = (N.of_nat (size (metrics (apply_event ev a)))
     + cacheMetricEvict (stats (apply_event ev a))
     + (c + entries_dropped ev a))%N.
Proof.
  intros Hc. destruct ev as [metric ts|metric ts sz|metric| | |];
    cbn [apply_event entries_dropped].
  - cbn. lia.
  - cbn. destruct (metrics a !! metric) as [met|] eqn:Hm.
    + destruct (chunks met !! ts) as [old|] eqn:Hts.
      { erewrite add_known_chunk by done. lia. }
      rewrite (add_new_chunk _ _ _ _ met) by done. cbn.
      rewrite map_size_insert_Some by done. lia.
    + rewrite add_new_metric by done. cbn.
      rewrite map_size_insert_None by done. lia.
  - destruct (metrics a !! metric) as [met|] eqn:Hm.
    + rewrite (delMet_present _ _ met) by done. cbn.
      assert (size (metrics a) ≠ 0%nat).
      { intros Hs. apply map_size_empty_iff in Hs. rewrite Hs in Hm.
        by rewrite lookup_empty in Hm. }
      rewrite map_size_delete_Some by done. lia.
    + rewrite delMet_absent by done. lia.
  - cbn. lia.
  - lia.
  - cbn. rewrite map_size_empty. lia.
Qed.

Lemma evict_metric_counters a c :
  cacheMetricAdd (stats a)
  = (N.of_nat (size (metrics a)) + cacheMetricEvict (stats a) + c)%N →
  cacheMetricAdd (stats (evict a))
  = (N.of_nat (size (metrics (evict a))) + cacheMetricEvict (stats (evict a)) + c)%N.
Proof.
  intros Hc. destruct (lru a) as [|target l] eqn:Hl; [by rewrite evict_empty|].
  destruct (metrics a !! Metric target) as [met|] eqn:Hm.
  - rewrite (evict_found _ _ _ _ Hl Hm). unfold evicted. cbn zeta. cbn.
    destruct (_ <=? 0).
    + rewrite map_size_delete_Some by done.
      assert (size (metrics a) ≠ 0%nat).
      { intros Hs. apply map_size_empty_iff in Hs. rewrite Hs in Hm.
        by rewrite lookup_empty in Hm. }
      lia.
    + rewrite map_size_insert_Some by done. done.
  - by rewrite (evict_missing _ _ _ Hl Hm).
Qed.

Lemma eventLoop_metric_counters events : ∀ a a' c,
  cacheMetricAdd (stats a)
  = (N.of_nat (size (metrics a)) + cacheMetricEvict (stats a) + c)%N →
  eventLoop a events = Some a' →
  cacheMetricAdd (stats a')
  = (N.of_nat (size (metrics a')) + cacheMetricEvict (stats a')
     + (c + entries_dropped_by a events))%N.
Proof.
  induction events as [|ev events IH]; intros a a' c Hc.
  { intros [= <-]. cbn. lia. }
  destruct (decide (ev = evnt_stop)) as [->|Hne].
  { intros [= <-]. cbn. lia. }
  assert (entries_dropped_by a (ev :: events)
          = (entries_dropped ev a
             + match drain (apply_event ev a) with
               | Some a => entries_dropped_by a events
               | None => 0
               end)%N) as -> by (by destruct ev).
  rewrite eventLoop_cons by done.
  destruct (drain (apply_event ev a)) as [a1|] eqn:Hd; [|done].
  cbn [mbind option_bind]. intros Ha'.
  pose proof (apply_event_metric_counters ev a c Hc) as Hc0.
  apply (drain_fuel_Some
           (λ x, cacheMetricAdd (stats x)
                 = (N.of_nat (size (metrics x)) + cacheMetricEvict (stats x)
                    + (c + entries_dropped ev a))%N)
           (λ x Hx _, evict_metric_counters x _ Hx) _ _ _ Hc0) in Hd as [Hc1 _].
  rewrite (IH _ _ _ Hc1 Ha'). lia.
Qed.

(** X5: The metric counters and the ledger balance: after any events
    processed from the initial state, [cacheMetricAdd] is the number of
    metric entries in the ledger, plus [cacheMetricEvict], plus the
    entries that metric deletions and resets took out (one for each
    deletion of a metric that was there, all entries for a reset), which
    neither counter counts.  So the number of entries plus
    [cacheMetricEvict] is at most [cacheMetricAdd]. *)
Theorem metric_counters_bound_ledger max events :
  U64.in_range max →
  ∃ a, eventLoop (NewFlatAccnt max) events = Some a
       ∧ cacheMetricAdd (stats a)
         = (N.of_nat (size (metrics a)) + cacheMetricEvict (stats a)
            + entries_dropped_by (NewFlatAccnt max) events)%N
       ∧ (N.of_nat (size (metrics a)) + cacheMetricEvict (stats a)
          ≤ cacheMetricAdd (stats a))%N.
Proof.
  intros [Hmax _].
  destruct (eventLoop_terminates events (NewFlatAccnt max)) as [a Ha];
    [apply inv_New|done|].
  exists a. split; [done|].
  pose proof (eventLoop_metric_counters events (NewFlatAccnt max) a 0%N) as Hc.
  rewrite Hc; [lia| |done]. cbn. rewrite map_size_empty. lia.
Qed.

Lemma metric_counters_bound_ledger_witness :
  U64.in_range 30
  ∧ ∃ a, eventLoop (NewFlatAccnt 30)
           [evnt_add_chnk s_a 2 20; evnt_add_chnk s_b 1 20; evnt_del_met s_b;
            evnt_add_chnk s_c 1 5; evnt_add_chnk s_b 7 5; evnt_reset;
            evnt_add_chnk s_c 2 5]
         = Some a
         ∧ cacheMetricAdd (stats a)
           = (N.of_nat (size (metrics a)) + cacheMetricEvict (stats a) + 3)%N
         ∧ (N.of_nat (size (metrics a)) + cacheMetricEvict (stats a)
            ≤ cacheMetricAdd (stats a))%N.
Proof.
  assert (U64.in_range 30) as Hr by (vm_compute; split; congruence).
  split; [exact Hr|]. exact (metric_counters_bound_ledger 30 _ Hr).
Defined.

(** ** Going over the limit *)

(** X6: Whenever [cacheSizeUsed] is above the limit in a reachable state, the
    drain loop sends at least one id on the evict queue and ends with
    [cacheSizeUsed] within the limit. *)
Theorem over_limit_evicts max a :
  U64.in_range max → reachable max a → used a > maxSize a →
  ∃ a', drain a = Some a'
        ∧ used a' <= maxSize a'
        ∧ (length (evictQ a) < length (evictQ a'))%nat.
Proof.
  intros [Hmax _] Hr Hgt.
  destruct (drain_terminates a) as [a' Ha'];
    [by eapply reachable_inv|by rewrite (reachable_maxSize _ _ Hr)|].
  exists a'. split; [done|].
  pose proof (drain_fuel_reachable max _ _ _ Hr Ha') as [_ Hq].
  pose proof (drain_fuel_maxSize _ _ _ Ha') as Hm.
  split; [done|].
  destruct (drain_fuel_progress _ _ _ Ha') as [[Hsame _]|Hlt]; [lia|done].
Qed.

Lemma over_limit_evicts_witness :
  U64.in_range 30 ∧ reachable 30 over_limit ∧ used over_limit > maxSize over_limit
  ∧ ∃ a', drain over_limit = Some a'
          ∧ used a' <= maxSize a'
          ∧ (length (evictQ over_limit) < length (evictQ a'))%nat.
Proof.
  assert (U64.in_range 30) as Hr by (vm_compute; split; congruence).
  assert (used over_limit > maxSize over_limit) as Hgt by (vm_compute; reflexivity).
  split_and!; [exact Hr|exact over_limit_reachable|exact Hgt|].
  exact (over_limit_evicts 30 over_limit Hr over_limit_reachable Hgt).
Defined.

(** ** Stop *)

(** X7: Nothing after a stop event has any effect: the loop has returned. *)
Theorem stop_ends_the_loop events rest a :
  eventLoop a (events ++ evnt_stop :: rest) = eventLoop a events.
Proof.
  revert a. induction events as [|ev events IH]; intros a; [done|].
  destruct (decide (ev = evnt_stop)) as [->|Hne]; [done|].
  rewrite <-app_comm_cons, !eventLoop_cons by done.
  destruct (drain (apply_event ev a)) as [a1|]; [|done]. cbn. apply IH.
Qed.

(** ** The sizes on record *)

Lemma in_ledger_chunk_size a t : in_ledger a t ↔ is_Some (chunk_size a t).
Proof. reflexivity. Qed.

(** X8: [add] records a size for a chunk once: for a chunk the ledger does not
    have it records the size given, a chunk the ledger has keeps its
    size whatever the new one is, and no other chunk is touched. *)
Theorem add_first_size_wins metric ts sz a t :
  chunk_size (add metric ts sz a) t
  = if decide (t = mkEvictTarget metric ts)
    then Some (default sz (chunk_size a t))
    else chunk_size a t.
Proof.
  destruct t as [m k]. unfold chunk_size. cbn.
  destruct (metrics a !! metric) as [met|] eqn:Hm.
  - destruct (chunks met !! ts) as [old|] eqn:Hts.
    { erewrite add_known_chunk by done.
      case_decide as Heq; [|done]. injection Heq as -> ->.
      rewrite Hm. cbn. by rewrite Hts. }
    rewrite (add_new_chunk _ _ _ _ met) by done. cbn.
    case_decide as Heq.
    + injection Heq as -> ->. rewrite lookup_insert_eq, Hm. cbn.
      by rewrite lookup_insert_eq, Hts.
    + destruct (decide (m = metric)) as [->|Hne].
      * rewrite lookup_insert_eq, Hm. cbn.
        rewrite lookup_insert_ne; [done|]. intros ->. by apply Heq.
      * by rewrite lookup_insert_ne.
  - rewrite add_new_metric by done. cbn.
    case_decide as Heq.
    + injection Heq as -> ->. rewrite lookup_insert_eq, Hm. cbn.
      by rewrite lookup_singleton_eq.
    + destruct (decide (m = metric)) as [->|Hne].
      * rewrite lookup_insert_eq, Hm. cbn.
        rewrite lookup_singleton_ne; [done|]. intros ->. by apply Heq.
      * by rewrite lookup_insert_ne.
Qed.

(** ** Deleting a metric *)

Lemma msum_nonneg `{Countable K} {A} (g : A → Z) (m : gmap K A) :
  (∀ k v, m !! k = Some v → 0 <= g v) → 0 <= msum g m.
Proof.
  induction m as [|k v m Hk IH] using map_ind; intros Hg.
  - by rewrite msum_empty.
  - rewrite msum_insert_None by done.
    pose proof (Hg k v (lookup_insert_eq _ _ _)).
    assert (0 <= msum g m); [|lia].
    apply IH. intros k' v' Hk'. apply (Hg k').
    rewrite lookup_insert_ne; [done|]. intros ->. congruence.
Qed.

Lemma msum_member_le `{Countable K} {A} (g : A → Z) (m : gmap K A) k v :
  (∀ k v, m !! k = Some v → 0 <= g v) → m !! k = Some v → g v <= msum g m.
Proof.
  intros Hg Hk. pose proof (msum_delete g m k v Hk) as Hd.
  assert (0 <= msum g (delete k m)); [|lia].
  apply msum_nonneg. intros k' v' Hk'.
  apply lookup_delete_Some in Hk' as [_ Hk']. by eapply Hg.
Qed.

(** X9: Deleting a metric at rest, while the totals of the ledger add up to
    less than 2^64: the metric entry is gone, its total is subtracted
    from [cacheSizeUsed], the ids of its chunks are gone from the recency
    index and no other id is, and nothing is sent on the evict queue, by
    the deletion or by the drain loop after it. *)
Theorem delMet_at_rest max a metric met :
  reachable max a → used a <= maxSize a →
  sum_totals (metrics a) < U64.modulus →
  metrics a !! metric = Some met →
  ∃ a', eventLoop a [evnt_del_met metric] = Some a'
        ∧ metrics a' = delete metric (metrics a)
        ∧ used a' = used a - total met
        ∧ evictQ a' = evictQ a
        ∧ ∀ t, t ∈ lru a'
               ↔ t ∈ lru a ∧ ¬ (Metric t = metric ∧ is_Some (chunks met !! Ts t)).
Proof.
  intros Hr Hq Hsum Hm.
  destruct (reachable_inv _ _ Hr) as [[Ht Hu] _ _].
  assert (∀ k v, metrics a !! k = Some v → 0 <= total v) as Hnn.
  { intros k v Hk. rewrite (Ht _ _ Hk). apply wrap_range. }
  pose proof (msum_nonneg total (metrics a) Hnn) as H0.
  pose proof (msum_member_le total (metrics a) metric met Hnn Hm) as Hle.
  fold (sum_totals (metrics a)) in H0, Hle.
  assert (used a = sum_totals (metrics a)) as Hused.
  { rewrite Hu. apply wrap_id. by split. }
  exists (delMet metric a).
  rewrite eventLoop_cons by done. cbn [apply_event].
  rewrite (delMet_present _ _ met) by done.
  set (a' := set_metrics _ _).
  assert (used a' = used a - total met) as Hused'.
  { unfold a', used. cbn. unfold U64.sub. apply wrap_id.
    pose proof (Hnn _ _ Hm). unfold U64.in_range, used in *. lia. }
  split_and!; [|done|done|done|].
  - rewrite drain_quiet; [done|]. rewrite Hused'.
    change (maxSize a') with (maxSize a). pose proof (Hnn _ _ Hm). lia.
  - intros t. unfold a'. cbn. rewrite elem_of_del_keys, elem_of_chunk_keys. done.
Qed.

Lemma delMet_at_rest_witness :
  reachable 20 two_metrics ∧ used two_metrics <= maxSize two_metrics
  ∧ sum_totals (metrics two_metrics) < U64.modulus
  ∧ metrics two_metrics !! s_a = Some (mkFlatAccntMet 5 {[1%N := 5]})
  ∧ ∃ a', eventLoop two_metrics [evnt_del_met s_a] = Some a'
          ∧ used a' = 5 ∧ evictQ a' = [].
Proof.
  assert (used two_metrics <= maxSize two_metrics) as Hq by (vm_compute; congruence).
  assert (sum_totals (metrics two_metrics) < U64.modulus) as Hs
    by (vm_compute; reflexivity).
  assert (metrics two_metrics !! s_a = Some (mkFlatAccntMet 5 {[1%N := 5]})) as Hm
    by (vm_compute; reflexivity).
  split_and!; [exact two_metrics_reachable|exact Hq|exact Hs|exact Hm|].
  destruct (delMet_at_rest 20 two_metrics s_a _ two_metrics_reachable Hq Hs Hm)
    as (a' & Ha' & _ & Hu & Hev & _).
  exists a'. split_and!; [exact Ha'| |].
  - rewrite Hu. vm_compute. reflexivity.
  - rewrite Hev. vm_compute. reflexivity.
Defined.

(** ** Evictions and additions *)

Lemma occurrences_app t (l k : list EvictTarget) :
  occurrences t (l ++ k) = (occurrences t l + occurrences t k)%nat.
Proof. unfold occurrences. by rewrite filter_app, length_app. Qed.

Lemma occurrences_absent t (l : list EvictTarget) : t ∉ l → occurrences t l = 0%nat.
Proof.
  intros Hnotin. unfold occurrences. induction l as [|x l IH]; [done|].
  apply not_elem_of_cons in Hnotin as [Hne Hl].
  rewrite filter_cons_False by congruence. by apply IH.
Qed.

Lemma occurrences_NoDup t (l : list EvictTarget) :
  NoDup l → (occurrences t l ≤ 1)%nat.
Proof.
  induction 1 as [|x l Hx Hnd IH]; [unfold occurrences; simpl; lia|].
  unfold occurrences in *. rewrite filter_cons. case_decide as Heq; [|done].
  subst x. simpl. fold (occurrences t l). rewrite occurrences_absent by done. lia.
Qed.

#[local] Instance mkEvictTarget_inj metric : Inj (=) (=) (mkEvictTarget metric).
Proof. by intros ts ts' [= ->]. Qed.

(** the ledger after an eviction: a chunk that is still there was there
    before and is none of the evicted ones *)
Lemma evicted_in_ledger_not_sent a target l met t :
  metrics a !! Metric target = Some met →
  in_ledger (evicted a target l met) t →
  in_ledger a t ∧ t ∉ (mkEvictTarget (Metric target) <$> evict_targets met target).
Proof.
  intros Hm Hin. split; [by eapply evicted_in_ledger|].
  intros Hsent. apply list_elem_of_fmap in Hsent as (ts & -> & Hts).
  apply in_ledger_lookup in Hin as (met' & Hm' & Hk).
  unfold evicted in Hm'. cbn zeta in Hm'. cbn in Hm', Hk.
  destruct (_ <=? 0).
  { by rewrite lookup_delete_eq in Hm'. }
  rewrite lookup_insert_eq in Hm'. injection Hm' as <-. cbn in Hk.
  rewrite lookup_del_all, decide_True in Hk by done. by destruct Hk.
Qed.

Lemma evict_sent_le_added t a n :
  (occurrences t (evictQ a) + (if decide (in_ledger a t) then 1 else 0) ≤ n)%nat →
  (occurrences t (evictQ (evict a))
   + (if decide (in_ledger (evict a) t) then 1 else 0) ≤ n)%nat.
Proof.
  intros HJ. destruct (lru a) as [|target l] eqn:Hl; [by rewrite evict_empty|].
  destruct (metrics a !! Metric target) as [met|] eqn:Hm.
  2:{ rewrite (evict_missing _ _ _ Hl Hm). cbn.
      destruct (decide (in_ledger a t)), (decide (in_ledger (set_lru l a) t));
        try lia; done. }
  rewrite (evict_found _ _ _ _ Hl Hm).
  set (sent := mkEvictTarget (Metric target) <$> evict_targets met target).
  assert (evictQ (evicted a target l met) = evictQ a ++ sent) as -> by done.
  rewrite occurrences_app.
  assert (NoDup sent) as Hnd.
  { apply NoDup_fmap_2; [apply _|apply NoDup_evict_targets]. }
  pose proof (occurrences_NoDup t sent Hnd) as Hone.
  destruct (decide (in_ledger (evicted a target l met) t)) as [Hin|Hout].
  - apply evicted_in_ledger_not_sent in Hin as [Hin Hnot]; [|done].
    rewrite (occurrences_absent t sent) by done.
    rewrite decide_True in HJ by done. lia.
  - destruct (decide (t ∈ sent)) as [Hsent|Hnot].
    + assert (in_ledger a t) as Hin.
      { apply list_elem_of_fmap in Hsent as (ts & -> & Hts).
        apply elem_of_evict_targets in Hts as [Hts _].
        apply in_ledger_lookup. by exists met. }
      rewrite decide_True in HJ by done. lia.
    + rewrite (occurrences_absent t sent) by done.
      destruct (decide (in_ledger a t)); lia.
Qed.

Lemma apply_event_sent_le_added t ev a n :
  ev ≠ evnt_stop →
  (occurrences t (evictQ a) + (if decide (in_ledger a t) then 1 else 0) ≤ n)%nat →
  (occurrences t (evictQ (apply_event ev a))
   + (if decide (in_ledger (apply_event ev a) t) then 1 else 0)
   ≤ n + adds_of t [ev])%nat.
Proof.
  intros Hstop HJ. rewrite apply_event_evictQ.
  assert (in_ledger (apply_event ev a) t → adds_of t [ev] = 0%nat → in_ledger a t)
    as Hmono.
  { destruct ev as [metric ts|metric ts sz|metric| | |]; cbn [apply_event];
      try done.
    - intros Hin Hadd. apply (in_ledger_ext (add metric ts sz a)) in Hin; [|done].
      apply add_in_ledger in Hin as [?| ->]; [done|].
      simpl in Hadd. rewrite decide_True in Hadd by done. lia.
    - intros Hin _. apply in_ledger_lookup in Hin as (met & Hm & Hk).
      apply in_ledger_lookup. exists met. split; [|done].
      destruct (metrics a !! metric) as [met0|] eqn:Hm0.
      + rewrite (delMet_present _ _ met0) in Hm by done. cbn in Hm.
        by apply lookup_delete_Some in Hm as [_ ?].
      + by rewrite delMet_absent in Hm.
    - intros Hin _. apply in_ledger_lookup in Hin as (met & Hm & _).
      cbn in Hm. by rewrite lookup_empty in Hm. }
  destruct (decide (in_ledger (apply_event ev a) t)) as [Hin|Hout];
    [|destruct (decide (in_ledger a t)); lia].
  destruct (decide (adds_of t [ev] = 0%nat)) as [Hz|Hnz].
  - rewrite decide_True in HJ by auto. lia.
  - destruct (decide (in_ledger a t)); lia.
Qed.

Lemma eventLoop_sent_le_added t events : ∀ a a' n,
  (occurrences t (evictQ a) + (if decide (in_ledger a t) then 1 else 0) ≤ n)%nat →
  eventLoop a events = Some a' →
  (occurrences t (evictQ a') + (if decide (in_ledger a' t) then 1 else 0)
   ≤ n + adds_of t events)%nat.
Proof.
  induction events as [|ev events IH]; intros a a' n HJ.
  { intros [= <-]. simpl. lia. }
  destruct (decide (ev = evnt_stop)) as [->|Hne].
  { intros [= <-]. simpl. lia. }
  assert (adds_of t (ev :: events) = (adds_of t [ev] + adds_of t events)%nat) as ->.
  { destruct ev; simpl; try lia. done. }
  rewrite eventLoop_cons by done.
  destruct (drain (apply_event ev a)) as [a1|] eqn:Hd; [|done]. cbn [mbind option_bind].
  intros Ha'.
  pose proof (apply_event_sent_le_added t ev a n Hne HJ) as HJ1.
  apply (drain_fuel_Some
           (λ x, (occurrences t (evictQ x)
                  + (if decide (in_ledger x t) then 1 else 0)
                  ≤ n + adds_of t [ev])%nat)
           (λ x Hx _, evict_sent_le_added t x _ Hx) _ _ _ HJ1) in Hd as [HJ2 _].
  pose proof (IH _ _ _ HJ2 Ha') as HJ3. lia.
Qed.

(** X10: A chunk is never evicted more often than it was added: after any
    events processed from the initial state, the number of times an id
    was sent on the evict queue, plus one if the chunk is in the ledger,
    is at most the number of add events for it. *)
Theorem evicted_at_most_as_often_as_added max events t :
  U64.in_range max →
  ∃ a, eventLoop (NewFlatAccnt max) events = Some a
       ∧ (occurrences t (evictQ a) + (if decide (in_ledger a t) then 1 else 0)
          ≤ adds_of t events)%nat.
Proof.
  intros [Hmax _].
  destruct (eventLoop_terminates events (NewFlatAccnt max)) as [a Ha];
    [apply inv_New|done|].
  exists a. split; [done|].
  apply (eventLoop_sent_le_added t events _ _ 0%nat) in Ha; [done|].
  rewrite decide_False; [done|].
  unfold in_ledger. cbn. rewrite lookup_empty. by intros [].
Qed.

Lemma evicted_at_most_as_often_as_added_witness :
  U64.in_range 10
  ∧ ∃ a, eventLoop (NewFlatAccnt 10)
           [evnt_add_chnk s_a 5 4; evnt_add_chnk s_a 1 8; evnt_add_chnk s_a 1 8]
         = Some a
         ∧ (occurrences (mkEvictTarget s_a 1) (evictQ a)
            + (if decide (in_ledger a (mkEvictTarget s_a 1)) then 1 else 0)
            ≤ 2)%nat.
Proof.
  assert (U64.in_range 10) as Hr by (vm_compute; split; congruence).
  split; [exact Hr|].
  exact (evicted_at_most_as_often_as_added 10 _ (mkEvictTarget s_a 1) Hr).
Defined.

(** ** What the accountant decides on *)

Lemma erase_eq a b :
  erase a = erase b
  ↔ metrics a = metrics b ∧ maxSize a = maxSize b ∧ lru a = lru b ∧ used a = used b.
Proof.
  unfold erase. split.
  - intros [= -> -> -> ->]. done.
  - intros (-> & -> & -> & ->). done.
Qed.

Lemma apply_event_erase ev a b :
  erase a = erase b → erase (apply_event ev a) = erase (apply_event ev b).
Proof.
  intros (Hm & Hx & Hl & Hu)%erase_eq. apply erase_eq.
  destruct ev as [metric ts|metric ts sz|metric| | |]; cbn [apply_event].
  - cbn. by rewrite Hl.
  - unfold add. rewrite Hm.
    destruct (metrics b !! metric) as [met|]; cbn.
    + destruct (chunks met !! ts); cbn; unfold used in *; cbn;
        by rewrite ?Hm, ?Hx, ?Hl, ?Hu.
    + rewrite lookup_empty. cbn. unfold used in *. cbn.
      by rewrite ?Hm, ?Hx, ?Hl, ?Hu.
  - unfold delMet. rewrite Hm.
    destruct (metrics b !! metric) as [met|]; cbn; unfold used in *; cbn;
      by rewrite ?Hm, ?Hx, ?Hl, ?Hu.
  - done.
  - done.
  - cbn. by rewrite Hx.
Qed.

Lemma evict_erase a b :
  erase a = erase b →
  ∃ sent, erase (evict a) = erase (evict b)
          ∧ evictQ (evict a) = evictQ a ++ sent
          ∧ evictQ (evict b) = evictQ b ++ sent.
Proof.
  intros (Hm & Hx & Hl & Hu)%erase_eq.
  destruct (lru b) as [|target l] eqn:Hlb.
  { exists []. rewrite !evict_empty by congruence.
    rewrite !app_nil_r. split_and!; [|done..]. apply erase_eq. by rewrite Hlb. }
  destruct (metrics b !! Metric target) as [met|] eqn:Hmb.
  - exists (mkEvictTarget (Metric target) <$> evict_targets met target).
    rewrite (evict_found a target l met), (evict_found b target l met)
      by congruence.
    split_and!; [|done..]. apply erase_eq. unfold evicted. cbn zeta. cbn.
    by rewrite Hm, Hx, Hu.
  - exists []. rewrite (evict_missing a target l), (evict_missing b target l)
      by congruence.
    rewrite !app_nil_r. split_and!; [|done..]. apply erase_eq. cbn. done.
Qed.

Lemma drain_fuel_erase n : ∀ a b a',
  erase a = erase b → drain_fuel n a = Some a' →
  ∃ b' sent, drain_fuel n b = Some b'
             ∧ erase a' = erase b'
             ∧ evictQ a' = evictQ a ++ sent
             ∧ evictQ b' = evictQ b ++ sent.
Proof.
  induction n as [|n IH]; intros a b a' Heq; simpl; [done|].
  pose proof Heq as (_ & Hx & _ & Hu)%erase_eq. rewrite <-Hx, <-Hu.
  destruct (used a >? maxSize a).
  - intros Hd. destruct (evict_erase a b Heq) as (s1 & Heq1 & Hqa & Hqb).
    destruct (IH _ _ _ Heq1 Hd) as (b' & s2 & Hb' & Heq' & Hqa' & Hqb').
    exists b', (s1 ++ s2). split_and!; [done|done| |].
    + by rewrite Hqa', Hqa, app_assoc.
    + by rewrite Hqb', Hqb, app_assoc.
  - intros [= <-]. exists b, []. by rewrite !app_nil_r.
Qed.

Lemma eventLoop_sim events : ∀ a b a',
  erase a = erase b → eventLoop a events = Some a' →
  ∃ b' sent, eventLoop b events = Some b'
             ∧ erase a' = erase b'
             ∧ evictQ a' = evictQ a ++ sent
             ∧ evictQ b' = evictQ b ++ sent.
Proof.
  induction events as [|ev events IH]; intros a b a' Heq.
  { intros [= <-]. exists b, []. by rewrite !app_nil_r. }
  destruct (decide (ev = evnt_stop)) as [->|Hne].
  { intros [= <-]. exists b, []. by rewrite !app_nil_r. }
  rewrite !eventLoop_cons by done.
  destruct (drain (apply_event ev a)) as [a1|] eqn:Hd; [|done].
  cbn [mbind option_bind]. intros Ha'.
  pose proof (apply_event_erase ev a b Heq) as Heq0.
  assert (drain (apply_event ev b) = drain_fuel (S (length (lru (apply_event ev a))))
                                               (apply_event ev b)) as Hfuel.
  { unfold drain. apply erase_eq in Heq0 as (_ & _ & -> & _). done. }
  destruct (drain_fuel_erase _ _ _ _ Heq0 Hd) as (b1 & s1 & Hb1 & Heq1 & Hqa & Hqb).
  destruct (IH _ _ _ Heq1 Ha') as (b' & s2 & Hb' & Heq' & Hqa' & Hqb').
  exists b', (s1 ++ s2). rewrite Hfuel, Hb1. cbn [mbind option_bind].
  split_and!; [done|done| |].
  - by rewrite Hqa', Hqa, apply_event_evictQ, app_assoc.
  - by rewrite Hqb', Hqb, apply_event_evictQ, app_assoc.
Qed.

(** X11: The ledger, the recency index, [cacheSizeUsed] and the ids sent on
    the evict queue depend on the ledger, the limit, the recency index
    and [cacheSizeUsed] alone: from two states that agree on these, the
    same events lead to states that agree on them again and send the same
    ids, whatever the counters, the evict queue and the replies were. *)
Theorem eventLoop_erase events a b a' :
  erase a = erase b → eventLoop a events = Some a' →
  ∃ b' sent, eventLoop b events = Some b'
             ∧ erase a' = erase b'
             ∧ evictQ a' = evictQ a ++ sent
             ∧ evictQ b' = evictQ b ++ sent.
Proof. apply eventLoop_sim. Qed.

Lemma eventLoop_erase_witness :
  erase three_chunks = erase (erase three_chunks)
  ∧ ∃ a' b' sent,
      eventLoop three_chunks [evnt_add_chnk s_b 1 90] = Some a'
      ∧ eventLoop (erase three_chunks) [evnt_add_chnk s_b 1 90] = Some b'
      ∧ erase a' = erase b'
      ∧ evictQ a' = evictQ three_chunks ++ sent
      ∧ evictQ b' = sent.
Proof.
  assert (erase three_chunks = erase (erase three_chunks)) as Heq by reflexivity.
  assert (eventLoop three_chunks [evnt_add_chnk s_b 1 90]
          = Some (default three_chunks
                    (eventLoop three_chunks [evnt_add_chnk s_b 1 90]))) as Hrun
    by (vm_compute; reflexivity).
  split; [exact Heq|].
  destruct (eventLoop_erase _ _ _ _ Heq Hrun) as (b' & sent & Hb' & He & Hqa & Hqb).
  eexists _, b', sent. split_and!; [exact Hrun|exact Hb'|exact He|exact Hqa|exact Hqb].
Defined.

(** ** Reset *)

(** X12: After a reset event the accountant goes on as a new one with the same
    limit: ledger, recency index and [cacheSizeUsed] develop as from
    [NewFlatAccnt], and what is sent on the evict queue is what the new
    one would send, after the ids sent before the reset. *)
Theorem reset_as_new a events :
  U64.in_range (maxSize a) →
  ∃ a' b', eventLoop a (evnt_reset :: events) = Some a'
           ∧ eventLoop (NewFlatAccnt (maxSize a)) events = Some b'
           ∧ erase a' = erase b'
           ∧ evictQ a' = evictQ a ++ evictQ b'.
Proof.
  intros [Hmax _].
  destruct (eventLoop_terminates events (NewFlatAccnt (maxSize a))) as [b' Hb'];
    [apply inv_New|done|].
  rewrite eventLoop_cons by done.
  rewrite drain_quiet by done. cbn [mbind option_bind].
  assert (erase (NewFlatAccnt (maxSize a)) = erase (apply_event evnt_reset a)) as Heq
    by done.
  destruct (eventLoop_sim _ _ _ _ Heq Hb') as (a' & sent & Ha' & He & Hqb & Hqa).
  exists a', b'. split_and!; [done|done|done|].
  rewrite Hqa. cbn in Hqb. by rewrite Hqb.
Qed.

Lemma reset_as_new_witness :
  U64.in_range (maxSize three_chunks)
  ∧ ∃ a' b', eventLoop three_chunks [evnt_reset; evnt_add_chnk s_a 1 200] = Some a'
             ∧ eventLoop (NewFlatAccnt 100) [evnt_add_chnk s_a 1 200] = Some b'
             ∧ erase a' = erase b'
             ∧ evictQ a' = evictQ three_chunks ++ evictQ b'.
Proof.
  assert (U64.in_range (maxSize three_chunks)) as Hr
    by (vm_compute; split; congruence).
  split; [exact Hr|].
  exact (reset_as_new three_chunks [evnt_add_chnk s_a 1 200] Hr).
Defined.

(** ** The event queue *)

Lemma act_room ev q d :
  (length q < Z.to_nat eventQSize)%nat → act ev (q, d) = (q ++ [ev], d).
Proof.
  intros Hlen. unfold act. cbn [fst snd].
  destruct (Z.of_nat (length q) <? eventQSize) eqn:Hlt; [done|].
  apply Z.ltb_ge in Hlt. lia.
Qed.

Lemma act_full ev q d :
  (Z.to_nat eventQSize ≤ length q)%nat → act ev (q, d) = (q, N.succ d).
Proof.
  intros Hlen. unfold act. cbn [fst snd].
  destruct (Z.of_nat (length q) <? eventQSize) eqn:Hlt; [|done].
  apply Z.ltb_lt in Hlt. lia.
Qed.

(** X13: Events submitted while the loop is not receiving: the queue keeps
    them in the order of submission up to its capacity of 100000 and
    never holds more; every event beyond that is dropped, each with one
    logged error. *)
Theorem act_keeps_first_events events : ∀ q d,
  (length q ≤ Z.to_nat eventQSize)%nat →
  foldl (λ st ev, act ev st) (q, d) events
  = (take (Z.to_nat eventQSize) (q ++ events),
     (d + N.of_nat (length (q ++ events) - Z.to_nat eventQSize))%N).
Proof.
  remember (Z.to_nat eventQSize) as cap eqn:Hcap.
  induction events as [|ev events IH]; intros q d Hlen.
  - simpl. rewrite app_nil_r, take_ge by done. f_equal. lia.
  - rewrite foldl_cons.
    destruct (decide (length q < cap)%nat) as [Hlt|Hge].
    + rewrite act_room by (by rewrite <-Hcap).
      rewrite IH by (rewrite length_app; simpl; lia).
      by rewrite <-app_assoc.
    + assert (length q = cap) as Hq by lia.
      rewrite act_full by (rewrite <-Hcap; lia).
      rewrite IH by done.
      rewrite !take_app_le, !take_ge by lia.
      f_equal. rewrite !length_app. simpl. lia.
Qed.

Lemma act_keeps_first_events_witness :
  (length (@nil FlatAccntEvent) ≤ Z.to_nat eventQSize)%nat
  ∧ (HitChunk s_a 1 (AddChunk s_a 1 10 ([], 0%N))).1
    = [evnt_add_chnk s_a 1 10; evnt_hit_chnk s_a 1].
Proof.
  assert (length (@nil FlatAccntEvent) ≤ Z.to_nat eventQSize)%nat as Hlen
    by apply Nat.le_0_l.
  split; [exact Hlen|].
  change (HitChunk s_a 1 (AddChunk s_a 1 10 ([], 0%N)))
    with (foldl (λ st ev, act ev st) ([], 0%N)
            [evnt_add_chnk s_a 1 10; evnt_hit_chnk s_a 1]).
  rewrite (act_keeps_first_events _ [] 0%N Hlen).
  cbn [fst app]. apply take_ge. cbn [length]. unfold eventQSize. lia.
Defined.

(** ** Events that never evict *)

(** X14: At rest only an add or a metric deletion can start the eviction path:
    a hit, a get-total, a reset or a stop event leaves the evict queue as
    it is, and the drain loop after it does nothing. *)
Theorem only_add_and_del_can_evict ev a :
  U64.in_range (maxSize a) → used a <= maxSize a →
  match ev with
  | evnt_add_chnk _ _ _ | evnt_del_met _ => False
  | _ => True
  end →
  eventLoop a [ev] = Some (apply_event ev a)
  ∧ evictQ (apply_event ev a) = evictQ a
  ∧ cacheChunkEvict (stats (apply_event ev a)) = cacheChunkEvict (stats a).
Proof.
  intros [Hmax _] Hq Hev.
  destruct ev as [metric ts|metric ts sz|metric| | |]; try done.
  - rewrite eventLoop_cons by done. by rewrite drain_quiet.
  - rewrite eventLoop_cons by done. by rewrite drain_quiet.
  - rewrite eventLoop_cons by done. by rewrite drain_quiet.
Qed.

Lemma only_add_and_del_can_evict_witness :
  U64.in_range (maxSize two_metrics) ∧ used two_metrics <= maxSize two_metrics
  ∧ eventLoop two_metrics [evnt_hit_chnk s_c 9]
    = Some (apply_event (evnt_hit_chnk s_c 9) two_metrics).
Proof.
  assert (U64.in_range (maxSize two_metrics)) as Hr by (vm_compute; split; congruence).
  assert (used two_metrics <= maxSize two_metrics) as Hq by (vm_compute; congruence).
  split_and!; [exact Hr|exact Hq|].
  exact (proj1 (only_add_and_del_can_evict (evnt_hit_chnk s_c 9) two_metrics Hr Hq I)).
Defined.

(** ** A popped id without a chunk that is old enough *)

(** X15: When the metric of the popped id is in the ledger but none of its
    chunks has a ts up to the target's (the id is a leftover in the
    recency index), [evict] sends nothing and leaves [cacheSizeUsed] and
    all chunk sizes alone; it only pops the id, and it deletes the metric
    entry exactly if the total of the metric is 0. *)
Theorem evict_leftover_target a target l met :
  lru a = target :: l →
  metrics a !! Metric target = Some met →
  U64.in_range (total met) →
  (∀ ts, is_Some (chunks met !! ts) → (Ts target < ts)%N) →
  evictQ (evict a) = evictQ a
  ∧ used (evict a) = used a
  ∧ lru (evict a) = l
  ∧ metrics (evict a)
    = if decide (total met = 0) then delete (Metric target) (metrics a)
      else metrics a.
Proof.
  intros Hl Hm [Hlo _] Hyoung.
  assert (evict_targets met target = []) as Hnone.
  { destruct (evict_targets met target) as [|ts tss] eqn:Hv; [done|].
    assert (ts ∈ evict_targets met target) as Hin
      by (rewrite Hv; apply list_elem_of_here).
    apply elem_of_evict_targets in Hin as [Hts Hle].
    specialize (Hyoung ts Hts). lia. }
  rewrite (evict_found _ _ _ _ Hl Hm). unfold evicted. cbn zeta.
  rewrite Hnone. cbn. rewrite app_nil_r. split_and!; [done..|].
  case_decide as Hz.
  - rewrite Hz. done.
  - destruct (total met <=? 0) eqn:Hle; [lia|].
    destruct met as [tot c]. by rewrite insert_id.
Qed.

Lemma evict_leftover_target_witness :
  let a := evict three_chunks in
  lru a = [mkEvictTarget s_a 1; mkEvictTarget s_a 7]
  ∧ metrics a !! s_a = Some (mkFlatAccntMet 5 {[7%N := 5]})
  ∧ evictQ (evict a) = evictQ a
  ∧ used (evict a) = used a
  ∧ lru (evict a) = [mkEvictTarget s_a 7]
  ∧ metrics (evict a) = metrics a.
Proof.
  intros a.
  assert (lru a = mkEvictTarget s_a 1 :: [mkEvictTarget s_a 7]) as Hl
    by (vm_compute; reflexivity).
  assert (metrics a !! Metric (mkEvictTarget s_a 1)
          = Some (mkFlatAccntMet 5 {[7%N := 5]})) as Hm
    by (vm_compute; reflexivity).
  assert (U64.in_range (total (mkFlatAccntMet 5 {[7%N := 5]}))) as Hr
    by (vm_compute; split; congruence).
  assert (∀ ts, is_Some (chunks (mkFlatAccntMet 5 {[7%N := 5]}) !! ts)
                → (Ts (mkEvictTarget s_a 1) < ts)%N) as Hyoung.
  { intros ts [sz Hts]. cbn in Hts.
    apply lookup_singleton_Some in Hts as [<- _]. cbn. lia. }
  destruct (evict_leftover_target a _ _ _ Hl Hm Hr Hyoung) as (Hq & Hu & Hl' & Hm').
  split_and!; [exact Hl|exact Hm|exact Hq|exact Hu|exact Hl'|exact Hm'].
Defined.
